(** * Oracle client of Beekeeper Studio: a shallow embedding

    Source: [apps/studio/src/lib/db/clients/oracle.ts] (class [OracleClient]).

    JavaScript strings are modelled as [string], read as sequences of code
    units below 256; arrays as [list]; [undefined]/[null] as [None] or as a
    constructor of the value type at hand; plain objects as the lists of
    their own properties in the order of [Object.keys], read through
    [Object.prototype]. *)

From Stdlib Require Import String Ascii List ZArith Lia Bool Arith.
From Stdlib Require Import Decimal DecimalNat DecimalString Sorted Permutation.
Import ListNotations.

Open Scope list_scope.
Open Scope string_scope.

(** ** JavaScript primitives used by the client *)

Module Js.

(** Relative index of [Array.prototype.slice] / [String.prototype.slice]:
    a negative index counts from the end, and the result is clamped to
    [0 .. len]. *)
Definition relIndex (len i : Z) : Z :=
  if (i <? 0)%Z then Z.max (len + i) 0 else Z.min i len.

(** [arr.slice(start, end)] *)
Definition Array_slice {A : Type} (arr : list A) (start end_ : Z) : list A :=
  let len := Z.of_nat (List.length arr) in
  let k := relIndex len start in
  let final := relIndex len end_ in
  firstn (Z.to_nat (final - k)) (skipn (Z.to_nat k) arr).

(** [str.slice(start, end)] *)
Definition String_slice (str : string) (start end_ : Z) : string :=
  let len := Z.of_nat (String.length str) in
  let k := relIndex len start in
  let final := relIndex len end_ in
  substring (Z.to_nat k) (Z.to_nat (final - k)) str.

(** White space and line terminators stripped by [trimEnd], among the code
    units below 256: TAB, LF, VT, FF, CR, SP and NBSP. *)
Definition isWhiteSpace (c : ascii) : bool :=
  let n := nat_of_ascii c in
  ((9 <=? n)%nat && (n <=? 13)%nat) || (n =? 32)%nat || (n =? 160)%nat.

(** [str.trimEnd()] *)
Fixpoint trimEnd (str : string) : string :=
  match str with
  | EmptyString => EmptyString
  | String c rest =>
      match trimEnd rest with
      | EmptyString => if isWhiteSpace c then EmptyString else String c EmptyString
      | kept => String c kept
      end
  end.

(** [str.startsWith(p)] *)
Definition startsWith (str p : string) : bool := prefix p str.

(** [str.endsWith(suffix)] *)
Definition endsWith (str suffix : string) : bool :=
  let n := String.length str in
  let m := String.length suffix in
  (m <=? n)%nat && (substring (n - m) m str =? suffix)%string.

(** [str.includes(needle)] *)
Fixpoint includes (str needle : string) : bool :=
  prefix needle str
  || match str with
     | EmptyString => false
     | String _ rest => includes rest needle
     end.

(** The upper case of one code unit below 256: the letters a-z and the
    letters 224-254 (but the division sign, 247) have their capital 32 below,
    and the sharp s (223) becomes SS.  The capitals of the micro sign (181)
    and of y with diaeresis (255) lie beyond 255: strings with these two code
    units are outside the strings modelled here. *)
Definition upperUnit (c : ascii) : string :=
  let n := nat_of_ascii c in
  if (97 <=? n)%nat && (n <=? 122)%nat then String (ascii_of_nat (n - 32)) EmptyString
  else if (224 <=? n)%nat && (n <=? 254)%nat && negb (n =? 247)%nat
  then String (ascii_of_nat (n - 32)) EmptyString
  else if (n =? 223)%nat then "SS"
  else String c EmptyString.

(** [str.toUpperCase()] *)
Fixpoint toUpperCase (str : string) : string :=
  match str with
  | EmptyString => EmptyString
  | String c rest => upperUnit c ++ toUpperCase rest
  end.

(** [arr.join(sep)] on an array of strings. *)
Fixpoint join (sep : string) (arr : list string) : string :=
  match arr with
  | [] => ""
  | [x] => x
  | x :: rest => x ++ sep ++ join sep rest
  end.

(** A string is truthy unless it is empty. *)
Definition truthy (str : string) : bool :=
  match str with EmptyString => false | _ => true end.

(** Decimal rendering of a natural number, as in [`${idx}`]. *)
Definition natToString (n : nat) : string :=
  NilEmpty.string_of_uint (Nat.to_uint n).

(** Decimal rendering of an integer: what [`${n}`] gives for an integer
    number up to 2^53 in magnitude. *)
Definition intToString (z : Z) : string :=
  match z with
  | Z0 => "0"
  | Zpos p => natToString (Pos.to_nat p)
  | Zneg p => "-" ++ natToString (Pos.to_nat p)
  end.

End Js.

(** ** Statement classification and the trailing semicolon *)

(** [executionType] of sql-query-identifier's [IdentifyResult]. *)
Inductive ExecutionType : Type :=
| LISTING | MODIFICATION | INFORMATION | ANON_BLOCK | UNKNOWN.

Definition ExecutionType_eqb (a b : ExecutionType) : bool :=
  match a, b with
  | LISTING, LISTING | MODIFICATION, MODIFICATION | INFORMATION, INFORMATION
  | ANON_BLOCK, ANON_BLOCK | UNKNOWN, UNKNOWN => true
  | _, _ => false
  end.

Record IdentifyResult : Type := {
  text : string;
  executionType : ExecutionType
}.

(** [maybeStripSemicolon(query, i)] *)
Definition maybeStripSemicolon (query : string) (i : IdentifyResult) : string :=
  let queryText := query in
  if negb (ExecutionType_eqb (executionType i) ANON_BLOCK) then
    if Js.endsWith (Js.trimEnd queryText) ";"
    then Js.String_slice (Js.trimEnd queryText) 0 (-1)
    else queryText
  else queryText.

(** Strings made of white space only. *)
Fixpoint allWhiteSpace (s : string) : bool :=
  match s with
  | EmptyString => true
  | String c rest => Js.isWhiteSpace c && allWhiteSpace rest
  end.

(** ** Values *)

(** The JavaScript values that reach the client as offsets, limits and
    result cells, and that it reads from row objects.  [JNumber z] is an
    integer number up to 2^53 in magnitude, the integers that JavaScript
    prints digit by digit; [JNumberOther printed] is any other number
    ([NaN], an infinity, a fraction, a larger integer, which JavaScript
    prints rounded or as [1e+21]), given by the text that JavaScript prints
    for it; [JInherited name] is the member [name] of [Object.prototype],
    which every plain object inherits. *)
Inductive JsValue : Type :=
| JUndefined
| JNull
| JNumber (z : Z)
| JString (s : string)
| JNumberOther (printed : string)
| JInherited (name : string).

(** [_.isNumber(v)] *)
Definition isNumber (v : JsValue) : bool :=
  match v with JNumber _ | JNumberOther _ => true | _ => false end.

(** Whether a value is one that the constructors stand for: a [JNumber]
    holds an integer up to 2^53 in magnitude. *)
Definition representable (v : JsValue) : bool :=
  match v with
  | JNumber z => (Z.abs z <=? 9007199254740992)%Z
  | _ => true
  end.

(** [`${n}`] for a number [n]. *)
Definition numberToString (n : JsValue) : string :=
  match n with
  | JNumber z => Js.intToString z
  | JNumberOther printed => printed
  | _ => ""
  end.

(** ["\n"] *)
Definition nl : string := String "010"%char EmptyString.

(** The double quote, as a one-character string. *)
Definition dquote : string := String "034"%char EmptyString.

(** ** SELECT generation *)

(** [OrderBy]: a bare field name or an object with a direction. *)
Inductive OrderBy : Type :=
| OrderByField (name : string)
| OrderByObject (field dir : string).

(** [value] of a [TableFilter]: absent, one value, or an array of values. *)
Inductive FilterValue : Type :=
| VUndefined
| VString (s : string)
| VArray (vs : list string).

Record TableFilter : Type := {
  filterField : string;
  filterType : string;
  filterValue : FilterValue;
  filterOp : option string
}.

(** The [filters] argument: a raw string, a list of filters, or nothing. *)
Inductive Filters : Type :=
| FiltersRaw (s : string)
| FiltersList (l : list TableFilter)
| FiltersNone.

(** ** Errors *)

(** A thrown JavaScript error: its [name], its [message] (which may be
    absent) and the driver's [errorNum] when there is one. *)
Record JsError : Type := {
  errName : string;
  message : option string;
  errorNum : option Z
}.

(** The [TypeError] of reading a property of, or calling a method on, a value
    that does not have it. *)
Definition TypeError : JsError :=
  {| errName := "TypeError"; message := Some "not a function or not an object";
     errorNum := None |}.

(** The completion of a call: a returned value or a thrown error. *)
Inductive Completion (A : Type) : Type :=
| Return (a : A)
| Throw (e : JsError).

Arguments Return {A} a.
Arguments Throw {A} e.

Definition bind {A B : Type} (m : Completion A) (k : A -> Completion B) : Completion B :=
  match m with Return a => k a | Throw e => Throw e end.

Notation "x <- m ;; k" := (bind m (fun x => k))
  (at level 61, m at next level, right associativity).

(** [arr.map(f)] where [f] may throw: the first failure aborts the map. *)
Fixpoint mapM {A B : Type} (f : A -> Completion B) (l : list A) : Completion (list B) :=
  match l with
  | [] => Return []
  | a :: rest => b <- f a ;; bs <- mapM f rest ;; Return (b :: bs)
  end.

Section OracleClient.

Set Default Proof Using "Type".

(** The dialect helpers of [@shared/lib/dialects/oracle] and [joinFilters] of
    [@/common/utils] are not part of the sources at hand: parameters. *)
Variable wrapIdentifier : string -> string.
Variable escapeString : FilterValue -> bool -> string.
Variable wrapLiteral : string -> string.
Variable joinFilters : list string -> list TableFilter -> string.

(** [genOrderByString(orderBy)] *)
Definition genOrderByString (orderBy : option (list OrderBy)) : string :=
  match orderBy with
  | None => ""
  | Some items =>
      if (0 <? List.length items)%nat then
        "ORDER BY " ++
        Js.join "," (map (fun item =>
          match item with
          | OrderByObject field dir => wrapIdentifier field ++ " " ++ Js.toUpperCase dir
          | OrderByField name => wrapIdentifier name
          end) items)
      else ""
  end.

(** The callback of [filters.map] in [genFilters]; calling [map] on a value
    that is not an array throws. *)
Definition genFilterItem (item : TableFilter) : Completion string :=
  if (filterType item =? "in")%string then
    match filterValue item with
    | VArray vs =>
        let valuesIn := map (fun v => escapeString (VString v) true) vs in
        Return (wrapIdentifier (filterField item) ++ " IN (" ++ Js.join "," valuesIn ++ ")")
    | _ => Throw TypeError
    end
  else if Js.includes (filterType item) "is" then
    Return (wrapIdentifier (filterField item) ++ " " ++ Js.toUpperCase (filterType item) ++ " NULL")
  else
    Return (wrapIdentifier (filterField item) ++ " " ++ filterType item ++ " "
            ++ escapeString (filterValue item) true).

(** [genFilters(filters)] *)
Definition genFilters (filters : option (list TableFilter)) : Completion string :=
  match filters with
  | Some l =>
      if (0 <? List.length l)%nat then
        allFilters <- mapM genFilterItem l ;;
        Return ("WHERE " ++ joinFilters allFilters l)
      else Return ""
  | None => Return ""
  end.

(** [genSelect(table, offset, limit, orderBy, filters, schema, count, selects)] *)
Definition genSelect (table : string) (offset limit : JsValue)
    (orderBy : option (list OrderBy)) (filters : Filters) (schema : option string)
    (count : bool) (selects : list string) : Completion string :=
  filterString <-
    match filters with
    | FiltersRaw s => Return ("WHERE " ++ wrapLiteral s)
    | FiltersList l => genFilters (Some l)
    | FiltersNone => genFilters None
    end ;;
  let orderByString := genOrderByString orderBy in
  let schemaString :=
    match schema with
    | Some s => if Js.truthy s then wrapIdentifier s ++ "." else ""
    | None => ""
    end in
  let baseSQL :=
    nl ++ "      FROM " ++ schemaString ++ wrapIdentifier table ++
    nl ++ "      " ++ filterString ++
    nl ++ "    " in
  let offsetString :=
    if isNumber offset && isNumber limit then
      "OFFSET " ++ numberToString offset ++ " ROWS FETCH NEXT " ++ numberToString limit
        ++ " ROWS ONLY"
    else "" in
  let selectFormatted :=
    map (fun s => if (s =? "*")%string then "*" else wrapIdentifier s) selects in
  let query :=
    nl ++ "      SELECT " ++
    (if count then "COUNT(1) as TOTAL" else Js.join ", " selectFormatted) ++ " " ++ baseSQL ++
    nl ++ "      " ++ orderByString ++
    nl ++ "      " ++ offsetString ++
    nl ++ "    " in
  Return query.

(** ** Driver results and their normalisation *)

(** A JavaScript object with the default prototype (as [{}] is), by its own
    enumerable properties in the order of [Object.keys]: the array indices in
    ascending order first, then the other names in the order in which they
    were created. *)
Definition JsObject : Type := list (string * JsValue).

(** The value of a decimal digit. *)
Definition digitValue (c : ascii) : option N :=
  let n := N_of_ascii c in
  if (48 <=? n)%N && (n <=? 57)%N then Some (n - 48)%N else None.

(** The number that a run of decimal digits writes, after the digits [acc]. *)
Fixpoint digitsValue (acc : N) (digits : string) : option N :=
  match digits with
  | EmptyString => Some acc
  | String c rest =>
      match digitValue c with
      | Some d => digitsValue (10 * acc + d)%N rest
      | None => None
      end
  end.

(** The array index that a property name denotes, if it denotes one: the name
    is the decimal text, without leading zeros, of an integer from 0 to
    2^32 - 2. *)
Definition arrayIndex (key : string) : option N :=
  match key with
  | EmptyString => None
  | String "0" EmptyString => Some 0%N
  | String "0" _ => None
  | _ =>
      match digitsValue 0 key with
      | Some n => if (n <? 4294967295)%N then Some n else None
      | None => None
      end
  end.

Definition isArrayIndex (key : string) : bool :=
  match arrayIndex key with Some _ => true | None => false end.

(** [Object.keys(obj)] *)
Definition Object_keys (obj : JsObject) : list string := map fst obj.

(** [Object.prototype.hasOwnProperty.call(obj, key)] *)
Definition hasOwnProperty (obj : JsObject) (key : string) : bool :=
  existsb (String.eqb key) (Object_keys obj).

(** The value of the own property [key], if there is one. *)
Fixpoint objGetOwn (obj : JsObject) (key : string) : option JsValue :=
  match obj with
  | [] => None
  | (k, v) :: rest => if (k =? key)%string then Some v else objGetOwn rest key
  end.

(** A new value for the own property [key], which keeps its place. *)
Fixpoint objReplace (obj : JsObject) (key : string) (value : JsValue) : JsObject :=
  match obj with
  | [] => []
  | (k, v) :: rest =>
      if (k =? key)%string then (k, value) :: rest else (k, v) :: objReplace rest key value
  end.

(** A new own property whose name is the array index [index]: it comes after
    the array indices below it and before every other property. *)
Fixpoint objInsertIndex (obj : JsObject) (index : N) (key : string) (value : JsValue)
  : JsObject :=
  match obj with
  | [] => [(key, value)]
  | (k, v) :: rest =>
      match arrayIndex k with
      | Some i =>
          if (i <? index)%N then (k, v) :: objInsertIndex rest index key value
          else (key, value) :: obj
      | None => (key, value) :: obj
      end
  end.

(** Defining the own data property [key]: an own property of that name takes
    the value and keeps its place; a new array index goes among the array
    indices, any other new name at the end. *)
Definition objDefine (obj : JsObject) (key : string) (value : JsValue) : JsObject :=
  if hasOwnProperty obj key then objReplace obj key value
  else
    match arrayIndex key with
    | Some index => objInsertIndex obj index key value
    | None => (obj ++ [(key, value)])%list
    end.

(** [obj[key] = value].  Every name but [__proto__] is defined as an own
    property (the members of [Object.prototype] with other names are
    writable data properties, which an assignment shadows).  [__proto__] is
    an accessor of [Object.prototype]: unless the object has an own property
    of that name, the assignment reaches the setter and creates no property.
    The setter ignores every value that is neither an object nor [null];
    given [null] it detaches the prototype, and the object is then no longer
    one with the default prototype: the properties of rows below are stated
    for columns with other names. *)
Definition objSet (obj : JsObject) (key : string) (value : JsValue) : JsObject :=
  if (key =? "__proto__")%string && negb (hasOwnProperty obj key) then obj
  else objDefine obj key value.

(** The names of the members of [Object.prototype]. *)
Definition Object_prototype_names : list string :=
  ["constructor"; "__defineGetter__"; "__defineSetter__"; "hasOwnProperty";
   "__lookupGetter__"; "__lookupSetter__"; "isPrototypeOf"; "propertyIsEnumerable";
   "toString"; "valueOf"; "__proto__"; "toLocaleString"].

(** [obj[key]]: the own property, or else the member of [Object.prototype]
    of that name, or else [undefined]. *)
Definition objGet (obj : JsObject) (key : string) : JsValue :=
  match objGetOwn obj key with
  | Some v => v
  | None =>
      if existsb (String.eqb key) Object_prototype_names then JInherited key
      else JUndefined
  end.

(** lodash's [assignValue(object, key, value)], which ends in
    [baseAssignValue]: the property is defined on the object itself, also
    when its name is [__proto__]. *)
Definition assignValue (object : JsObject) (key : string) (value : JsValue) : JsObject :=
  objDefine object key value.

(** The loop of lodash's [baseZipObject]: [values[index]] is [undefined]
    beyond the end of [values]. *)
Fixpoint baseZipObject (result : JsObject) (props : list string) (values : list JsValue)
  : JsObject :=
  match props with
  | [] => result
  | p :: ps => baseZipObject (assignValue result p (hd JUndefined values)) ps (tl values)
  end.

(** [_.zipObject(props, values)] *)
Definition zipObject (props : list string) (values : list JsValue) : JsObject :=
  baseZipObject [] props values.

(** Each property paired with the value at its index, [undefined] beyond
    the end of [values]: what [zipObject] is meant to build. *)
Fixpoint pairUp (props : list string) (values : list JsValue) : JsObject :=
  match props with
  | [] => []
  | p :: ps => (p, hd JUndefined values) :: pairUp ps (tl values)
  end.

(** [oracle.Metadata] *)
Record Metadata : Type := {
  metaName : string;
  dbTypeName : option string
}.

(** [oracle.Result] *)
Record OracleResult : Type := {
  metaData : option (list Metadata);
  rows : option (list (list JsValue));
  rowsAffected : option nat
}.

Record DriverResult : Type := {
  result : OracleResult;
  info : IdentifyResult
}.

Record FieldDescriptor : Type := {
  fieldName : string;
  id : string;
  dataType : option string
}.

Record NgQueryResult : Type := {
  command : string;
  rowCount : nat;
  affectedRows : nat;
  resultRows : list JsObject;
  fields : list FieldDescriptor
}.

(** [arr.map((x, idx) => f(x, idx))], counting from [idx]. *)
Fixpoint mapIdx {A B : Type} (f : A -> nat -> B) (idx : nat) (arr : list A) : list B :=
  match arr with
  | [] => []
  | x :: rest => f x idx :: mapIdx f (S idx) rest
  end.

(** [metaToFields(metaData)] *)
Definition metaToFields (metaData : option (list Metadata)) : list FieldDescriptor :=
  match metaData with
  | Some l =>
      mapIdx (fun meta idx =>
                {| fieldName := metaName meta;
                   id := "c" ++ Js.natToString idx;
                   dataType := dbTypeName meta |}) 0 l
  | None => []
  end.

(** [parseResult(result)] *)
Definition parseResult (r : DriverResult) : NgQueryResult :=
  let fields := metaToFields (metaData (result r)) in
  let fieldIds := map id fields in
  {| command := text (info r);
     rowCount := match rows (result r) with Some rs => List.length rs | None => 0 end;
     affectedRows := match rowsAffected (result r) with Some n => n | None => 0 end;
     resultRows :=
       match rows (result r) with
       | Some rs => map (fun row => zipObject fieldIds row) rs
       | None => []
       end;
     fields := metaToFields (metaData (result r)) |}.

(** [parseResults(results)] *)
Definition parseResults (results : list DriverResult) : list NgQueryResult :=
  map parseResult results.

(** ** Execution on a pooled session *)

(** The engine behind the pool and its sessions: [getConnection] is
    [pool.getConnection()], [execute] the driver's [connection.execute],
    [commit] its [connection.commit] and [close] its [connection.close];
    [identify] is sql-query-identifier's splitter and classifier.  Acquiring
    a session, running a statement and committing can each fail. *)
Variable Engine : Type.
Variable identify : string -> list IdentifyResult.
Variable execute : Engine -> string -> Engine * Completion OracleResult.
Variable commit : Engine -> Engine * Completion unit.
Variable getConnection : Engine -> Engine * Completion unit.
Variable close : Engine -> Engine.

(** Modelled from the spec: [withClosable] of [@/common/utils], which is not
    among the sources; a session "must be returned (explicit release or
    cursor close) on every exit path, including error paths": the body runs
    on the session, the session is closed whether the body returned or
    threw, and the body's completion is passed on. *)
Definition withClosable {A : Type} (body : Engine -> Engine * Completion A) (db : Engine)
  : Engine * Completion A :=
  let (db', completion) := body db in (close db', completion).

(** The [for] loop of [rawExecuteQuery] from index [qi] on. *)
Fixpoint executeInfos (infos : list IdentifyResult) (results : list DriverResult)
    (db : Engine) : Engine * Completion (list DriverResult) :=
  match infos with
  | [] => (db, Return results)
  | q :: rest =>
      let queryText := maybeStripSemicolon (text q) q in
      match execute db queryText with
      | (db', Return data) =>
          executeInfos rest (results ++ [{| result := data; info := q |}]) db'
      | (db', Throw e) => (db', Throw e)
      end
  end.

(** [rawExecuteQuery(query, options)], on the array [realQueries]. *)
Definition rawExecuteQuery (realQueries : list string) (db : Engine)
  : Engine * Completion (list DriverResult) :=
  let infos := flat_map identify realQueries in
  match getConnection db with
  | (db0, Throw e) => (db0, Throw e)
  | (db0, Return _) =>
      withClosable
        (fun c =>
           match executeInfos infos [] c with
           | (db1, Throw e) => (db1, Throw e)
           | (db1, Return results) =>
               match commit db1 with
               | (db2, Throw e) => (db2, Throw e)
               | (db2, Return _) => (db2, Return results)
               end
           end) db0
  end.

(** Modelled from the spec: [driverExecuteMultiple] of the base client, which
    is not among the sources; "an ordered list of results, one per classified
    statement, executed sequentially on one acquired session, committed as a
    unit at the end", which is what [rawExecuteQuery] does. *)
Definition driverExecuteMultiple (query : string) (db : Engine)
  : Engine * Completion (list DriverResult) :=
  rawExecuteQuery [query] db.

(** Modelled from the spec: [driverExecuteSingle] of the base client, which
    is not among the sources; "one normalized result", the first of the
    statement results.  Without any, destructuring the result throws. *)
Definition driverExecuteSingle (query : string) (db : Engine)
  : Engine * Completion DriverResult :=
  match rawExecuteQuery [query] db with
  | (db', Return (r :: _)) => (db', Return r)
  | (db', Return []) => (db', Throw TypeError)
  | (db', Throw e) => (db', Throw e)
  end.

(** [r.forEach((item, idx) => { nuRow[result.metaData[idx].name] = item })]:
    reading [name] of a missing metadata entry throws. *)
Fixpoint fillRow (metaData : list Metadata) (nuRow : JsObject) (idx : nat)
    (r : list JsValue) : Completion JsObject :=
  match r with
  | [] => Return nuRow
  | item :: rest =>
      match nth_error metaData idx with
      | Some meta => fillRow metaData (objSet nuRow (metaName meta) item) (S idx) rest
      | None => Throw TypeError
      end
  end.

(** [driverExecuteSimple(query)] *)
Definition driverExecuteSimple (query : string) (db : Engine)
  : Engine * Completion (list JsObject) :=
  match driverExecuteSingle query db with
  | (db', Throw e) => (db', Throw e)
  | (db', Return dr) =>
      (db',
       match rows (result dr) with
       | None => Throw TypeError
       | Some rs =>
           mapM (fun r =>
                   match r, metaData (result dr) with
                   | [], _ => Return []
                   | _, None => Throw TypeError
                   | _, Some md => fillRow md [] 0 r
                   end) rs
       end)
  end.

(** ** Browsing a table *)

Record TableResult : Type := {
  trResult : list JsObject;
  trFields : list string
}.

(** [server.config.user] *)
Variable user : string.

(** [defaultSchema()] *)
Definition defaultSchema : string := Js.toUpperCase user.

(** [selectTop(table, offset, limit, orderBy, filters, schema, selects)];
    an omitted [schema] or [selects] takes its default. *)
Definition selectTop (table : string) (offset limit : JsValue)
    (orderBy : option (list OrderBy)) (filters : Filters)
    (schema : option string) (selects : option (list string)) (db : Engine)
  : Engine * Completion TableResult :=
  let schema := match schema with Some s => s | None => defaultSchema end in
  let selects := match selects with Some l => l | None => ["*"] end in
  match genSelect table offset limit orderBy filters (Some schema) false selects with
  | Throw e => (db, Throw e)
  | Return query =>
      match driverExecuteSimple query db with
      | (db', Throw e) => (db', Throw e)
      | (db', Return result) =>
          let fields := Object_keys (match result with row0 :: _ => row0 | [] => [] end) in
          (db', Return {| trResult := result; trFields := fields |})
      end
  end.

(** ** Applying a change set *)

(** The row-level change descriptors and the statement builders of
    [./utils] are not among the sources: parameters.  A builder receives the
    list as the caller has it, which may be absent. *)
Variables TableInsert TableUpdate TableDelete : Type.
Variable buildInsertQueries : option (list TableInsert) -> list string.
Variable buildUpdateQueries : option (list TableUpdate) -> list string.
Variable buildDeleteQueries : option (list TableDelete) -> list string.
Variable buildSelectQueriesFromUpdates : list TableUpdate -> list string.

Record TableChanges : Type := {
  inserts : option (list TableInsert);
  updates : option (list TableUpdate);
  deletes : option (list TableDelete)
}.

(** [applyChanges(changes)] *)
Definition applyChanges (changes : TableChanges) (db : Engine)
  : Engine * Completion (list DriverResult) :=
  let insertQueries := buildInsertQueries (inserts changes) in
  let updateQueries := buildUpdateQueries (updates changes) in
  let deleteQueries := buildDeleteQueries (deletes changes) in
  let queries := (insertQueries ++ updateQueries ++ deleteQueries)%list in
  let queries :=
    match updates changes with
    | Some us => (queries ++ buildSelectQueriesFromUpdates us)%list
    | None => queries
    end in
  match driverExecuteMultiple (Js.join ";" queries) db with
  | (db', Throw e) => (db', Throw e)
  | (db', Return results) =>
      let selectResults :=
        match updates changes with
        | Some us =>
            Js.Array_slice results
              (Z.of_nat (List.length results) - Z.of_nat (List.length us)) (-1)
        | None => []
        end in
      (db', Return selectResults)
  end.

(** ** Listing tables and views *)

(** The clauses that the client adds to a knex query builder. *)
Inductive WhereClause : Type :=
| Where (column value : string)
| WhereIn (column : string) (values : list string)
| WhereNotIn (column : string) (values : list string).

Record QueryBuilder : Type := {
  fromTable : string;
  wheres : list WhereClause
}.

(** [this.knex(tableName)] *)
Definition knex (tableName : string) : QueryBuilder :=
  {| fromTable := tableName; wheres := [] |}.

Definition addClause (builder : QueryBuilder) (c : WhereClause) : QueryBuilder :=
  {| fromTable := fromTable builder; wheres := (wheres builder ++ [c])%list |}.

(** Whether a dictionary row satisfies a clause; a cell that is not a string
    satisfies none. *)
Definition holds (row : JsObject) (c : WhereClause) : bool :=
  match c with
  | Where column value =>
      match objGet row column with JString s => (s =? value)%string | _ => false end
  | WhereIn column values =>
      match objGet row column with
      | JString s => existsb (String.eqb s) values
      | _ => false
      end
  | WhereNotIn column values =>
      match objGet row column with
      | JString s => negb (existsb (String.eqb s) values)
      | _ => false
      end
  end.

(** The rows of the engine's data dictionary views, by view name. *)
Variable dictionary : string -> list JsObject.

(** [driverExecuteSimple(builder.select().toQuery())]: the SELECT that knex
    renders is represented by its meaning, the rows of the view that satisfy
    every clause, in the view's order. *)
Definition runSelect (builder : QueryBuilder) : list JsObject :=
  filter (fun row => forallb (holds row) (wheres builder)) (dictionary (fromTable builder)).

Record FilterOptions : Type := {
  filterSchema : option string;
  only : option (list string);
  ignore : option (list string)
}.

Record TableOrView : Type := {
  entitySchema : JsValue;
  entityName : JsValue;
  entityType : string
}.

(** [if (filter?.schema) builder.where('OWNER', filter.schema.toUpperCase())] *)
Definition scopeToSchema (filter : option FilterOptions) (builder : QueryBuilder)
  : QueryBuilder :=
  match filter with
  | Some {| filterSchema := Some s |} =>
      if Js.truthy s then addClause builder (Where "OWNER" (Js.toUpperCase s)) else builder
  | _ => builder
  end.

(** [listTables(filter)] *)
Definition listTables (filter : option FilterOptions) : list TableOrView :=
  let builder := knex "ALL_TABLES" in
  let builder := scopeToSchema filter builder in
  let builder :=
    match filter with
    | Some {| only := Some names |} => addClause builder (WhereIn "TABLE_NAME" names)
    | _ => builder
    end in
  let builder :=
    match filter with
    | Some {| ignore := Some names |} => addClause builder (WhereNotIn "TABLE_NAME" names)
    | _ => builder
    end in
  let tables := runSelect builder in
  map (fun row =>
         {| entitySchema := objGet row "OWNER";
            entityName := objGet row "TABLE_NAME";
            entityType := "table" |}) tables.

(** [listViews(filter)] *)
Definition listViews (filter : option FilterOptions) : list TableOrView :=
  let q := knex "ALL_VIEWS" in
  let q := scopeToSchema filter q in
  let q :=
    match filter with
    | Some {| only := Some names |} => addClause q (WhereIn "VIEW_NAME" names)
    | _ => q
    end in
  let q :=
    match filter with
    | Some {| ignore := Some names |} => addClause q (WhereIn "VIEW_NAME" names)
    | _ => q
    end in
  let views := runSelect q in
  map (fun row =>
         {| entitySchema := objGet row "OWNER";
            entityName := objGet row "VIEW_NAME";
            entityType := "view" |}) views.

(** ** Primary keys *)

(** A row of [all_constraints]. *)
Record ConstraintRow : Type := {
  consOwner : string;
  consName : string;
  consType : string;
  consStatus : string
}.

(** A row of [all_cons_columns]. *)
Record ConsColumnRow : Type := {
  colOwner : string;
  colConstraintName : string;
  colTableName : string;
  colColumnName : string;
  colPosition : Z
}.

Variable all_constraints : list ConstraintRow.
Variable all_cons_columns : list ConsColumnRow.

Record PrimaryKeyColumn : Type := {
  columnName : string;
  position : Z
}.

(** Insertion into a list ordered by [leb]. *)
Fixpoint insertOrdered {A : Type} (leb : A -> A -> bool) (x : A) (l : list A) : list A :=
  match l with
  | [] => [x]
  | y :: rest => if leb x y then x :: l else y :: insertOrdered leb x rest
  end.

(** The rows in the order of an [ORDER BY] whose comparison is [leb]; rows
    that compare equal keep their relative order. *)
Definition orderRows {A : Type} (leb : A -> A -> bool) (l : list A) : list A :=
  fold_right (insertOrdered leb) [] l.

(** [ORDER BY cols.table_name, cols.position] *)
Definition byTableThenPosition (r1 r2 : ConstraintRow * ConsColumnRow) : bool :=
  match String.compare (colTableName (snd r1)) (colTableName (snd r2)) with
  | Lt => true
  | Eq => (colPosition (snd r1) <=? colPosition (snd r2))%Z
  | Gt => false
  end.

(** The [WHERE] condition of the primary-key query. *)
Definition isPrimaryKeyColumnOf (table : string) (schema : option string)
    (r : ConstraintRow * ConsColumnRow) : bool :=
  let (cons, cols) := r in
  (colTableName cols =? table)%string
  && match schema with
     | Some s => if Js.truthy s then (colOwner cols =? Js.toUpperCase s)%string else true
     | None => true
     end
  && (consType cons =? "P")%string
  && (consName cons =? colConstraintName cols)%string
  && (consOwner cons =? colOwner cols)%string.

(** [getPrimaryKeys(table, schema)]: the SELECT over
    [all_constraints cons, all_cons_columns cols] is represented by its
    meaning, then each row is mapped to its column name and position. *)
Definition getPrimaryKeys (table : string) (schema : option string)
  : list PrimaryKeyColumn :=
  let response :=
    orderRows byTableThenPosition
      (filter (isPrimaryKeyColumnOf table schema)
              (list_prod all_constraints all_cons_columns)) in
  map (fun row =>
         {| columnName := colColumnName (snd row);
            position := colPosition (snd row) |}) response.

(** [getPrimaryKey(table, schema)]; [None] is [null]. *)
Definition getPrimaryKey (table : string) (schema : option string) : option string :=
  let all := getPrimaryKeys table schema in
  if (List.length all =? 1)%nat
  then match all with pk :: _ => Some (columnName pk) | [] => None end
  else None.

(** ** Cancelable queries *)

(** [errors.CANCELED_BY_USER], of [@/lib/errors]. *)
Variable CANCELED_BY_USER : JsError.

(** What [execute()] resolves to: the parsed results, or [undefined]. *)
Inductive ExecuteValue : Type :=
| Results (rs : list NgQueryResult)
| Undefined.

(** How the promise returned by [execute()] settles. *)
Inductive Outcome : Type :=
| Resolved (v : ExecuteValue)
| Rejected (e : JsError).

(** Where the body of [execute] stands: not called yet, suspended at
    [await getConnection()], suspended at [await driverExecuteMultiple(text)],
    or settled. *)
Inductive Phase : Type :=
| NotCalled
| AwaitingConnection
| AwaitingDriver
| Settled (o : Outcome).

(** The variables closed over by [execute] and [cancel], the two flags of the
    cancelable promise, and what the pair has done to the outside: the
    connections it interrupted and the warnings it logged. *)
Record QueryState : Type := {
  canceling : bool;
  connection : option nat;
  canceled : bool;
  discarded : bool;
  interrupted : list nat;
  warnings : list string;
  phase : Phase
}.

(** The closure right after [query(text)] returns. *)
Definition query : QueryState :=
  {| canceling := false; connection := None; canceled := false; discarded := false;
     interrupted := []; warnings := []; phase := NotCalled |}.

(** What happens to a cancelable query: its two methods are called, and the
    pool and the driver complete what [execute] awaits.  The completion of
    [driverExecuteMultiple(text)] is the engine's to decide. *)
Inductive Event : Type :=
| CallExecute
| CallCancel
| ConnectionAcquired (c : nat)
| ConnectionFailed (e : JsError)
| DriverSettled (r : Completion (list DriverResult)).

(** Modelled from the spec: [createCancelablePromise] of [@/common/utils],
    which is not among the sources; the "explicit two-outcome race construct":
    [wait()] rejects with the error given at creation once [cancel()] has been
    called and stays pending otherwise, so that in
    [Promise.race([cancelable.wait(), data])] the rejection is the first to
    settle when there is one, and [data] wins otherwise. *)
Definition race (s : QueryState) (data : list DriverResult)
  : Completion (option (list DriverResult)) :=
  if canceled s then Throw CANCELED_BY_USER else Return (Some data).

(** The message rewrite of the [catch] block. *)
Definition rewriteMessage (err : JsError) : JsError :=
  match message err with
  | Some m =>
      if Js.includes m "table or view does not exist" then
        {| errName := errName err;
           message := Some (m ++ " - have you tried " ++ dquote ++ "quoting" ++ dquote
                              ++ " the table name?");
           errorNum := errorNum err |}
      else err
  | None => err
  end.

Definition settle (s : QueryState) (w : list string) (o : Outcome) : QueryState :=
  {| canceling := canceling s; connection := connection s; canceled := canceled s;
     discarded := true; interrupted := interrupted s;
     warnings := (warnings s ++ w)%list; phase := Settled o |}.

(** The [catch] block followed by the [finally] block. *)
Definition catchBlock (s : QueryState) (err : JsError) : QueryState :=
  if canceling s then settle s ["user cancelled query execution"] (Resolved Undefined)
  else settle s [] (Rejected (rewriteMessage err)).

(** The [try] block from the point where the driver call has completed. *)
Definition tryBlock (s : QueryState) (r : Completion (list DriverResult)) : QueryState :=
  match r with
  | Throw err => catchBlock s err
  | Return driverData =>
      match race s driverData with
      | Throw err => catchBlock s err
      | Return None => settle s [] (Resolved (Results []))
      | Return (Some data) => settle s [] (Resolved (Results (parseResults data)))
      end
  end.

(** [cancel()] *)
Definition cancel (s : QueryState) : QueryState :=
  match connection s with
  | Some c =>
      {| canceling := true; connection := connection s; canceled := canceled s;
         discarded := discarded s; interrupted := (interrupted s ++ [c])%list;
         warnings := warnings s; phase := phase s |}
  | None =>
      {| canceling := true; connection := connection s; canceled := true;
         discarded := discarded s; interrupted := interrupted s;
         warnings := warnings s; phase := phase s |}
  end.

(** One turn of the event loop, for a cancelable query whose [execute()] is
    called once: the machine follows that one call from its start to its
    settling.  A completion that nothing awaits is dropped.  A further call
    of [execute()] would start a second run of the closure over the same
    variables; that run is not followed here, and the properties of more
    than one call are stated for at most one [CallExecute]. *)
Definition step (s : QueryState) (ev : Event) : QueryState :=
  match ev, phase s with
  | CallCancel, _ => cancel s
  | CallExecute, NotCalled =>
      {| canceling := canceling s; connection := connection s; canceled := canceled s;
         discarded := discarded s; interrupted := interrupted s;
         warnings := warnings s; phase := AwaitingConnection |}
  | ConnectionAcquired c, AwaitingConnection =>
      {| canceling := canceling s; connection := Some c; canceled := canceled s;
         discarded := discarded s; interrupted := interrupted s;
         warnings := warnings s; phase := AwaitingDriver |}
  | ConnectionFailed e, AwaitingConnection =>
      {| canceling := canceling s; connection := connection s; canceled := canceled s;
         discarded := discarded s; interrupted := interrupted s;
         warnings := warnings s; phase := Settled (Rejected e) |}
  | DriverSettled r, AwaitingDriver => tryBlock s r
  | _, _ => s
  end.

(** The state after a sequence of events. *)
Definition run (events : list Event) : QueryState := fold_left step events query.

(** Whether an event is a call of [execute()]. *)
Definition isCallExecute (ev : Event) : bool :=
  match ev with CallExecute => true | _ => false end.

(** How many times [execute()] is called in a sequence of events. *)
Definition executeCalls (events : list Event) : nat :=
  List.length (filter isCallExecute events).

(** The settled outcome of [execute()], if it has settled. *)
Definition outcome (s : QueryState) : option Outcome :=
  match phase s with Settled o => Some o | _ => None end.

(** Whether [connection] is set. *)
Definition hasConnection (s : QueryState) : bool :=
  match connection s with Some _ => true | None => false end.

(** The warning is logged by the runs that resolve as canceled, and only by
    them. *)
Definition warned_iff_canceled (s : QueryState) : Prop :=
  match phase s with
  | Settled (Resolved Undefined) => warnings s = ["user cancelled query execution"]
  | _ => warnings s = []
  end.

(** ** A small engine and change builders, to run the client on concrete inputs *)

(** Splits a script after each [;], which stays with its statement. *)
Fixpoint demo_split (cur script : string) : list string :=
  match script with
  | EmptyString => if Js.truthy cur then [cur] else []
  | String c rest =>
      if Ascii.eqb c ";"%char
      then (cur ++ ";") :: demo_split "" rest
      else demo_split (cur ++ String c "") rest
  end.

Definition demo_identify (script : string) : list IdentifyResult :=
  map (fun t => {| text := t;
                   executionType := if prefix "SELECT" t then LISTING else MODIFICATION |})
      (demo_split "" script).

(** An engine that logs the statements it receives and answers each with a
    single row holding the text it was sent. *)
Definition demo_execute (db : list string) (statement : string)
  : list string * Completion OracleResult :=
  ((db ++ [statement])%list,
   Return {| metaData := Some [{| metaName := "STATEMENT"; dbTypeName := Some "VARCHAR2" |}];
             rows := Some [[JString statement]];
             rowsAffected := None |}).

(** An engine whose every query matches no row of a two-column table. *)
Definition demo_executeEmpty (db : list string) (statement : string)
  : list string * Completion OracleResult :=
  ((db ++ [statement])%list,
   Return {| metaData := Some [{| metaName := "ID"; dbTypeName := Some "NUMBER" |};
                               {| metaName := "STATUS"; dbTypeName := Some "VARCHAR2" |}];
             rows := Some [];
             rowsAffected := None |}).

Definition demo_commit (db : list string) : list string * Completion unit :=
  ((db ++ ["COMMIT"])%list, Return tt).

(** A pool that always has a session at hand; acquiring and closing it
    leave no trace in the log. *)
Definition demo_getConnection (db : list string) : list string * Completion unit :=
  (db, Return tt).

Definition demo_close (db : list string) : list string := db.

(** A pool that logs the acquiring and the closing of its sessions. *)
Definition demo_getConnectionLogged (db : list string) : list string * Completion unit :=
  ((db ++ ["OPEN"])%list, Return tt).

Definition demo_closeLogged (db : list string) : list string := (db ++ ["CLOSE"])%list.

Definition demo_orEmpty (keys : option (list string)) : list string :=
  match keys with Some l => l | None => [] end.

(** One statement per change, each change being the key of its row. *)
Definition demo_buildInsertQueries (keys : option (list string)) : list string :=
  map (fun k => "INSERT INTO T (ID) VALUES (" ++ k ++ ")") (demo_orEmpty keys).

Definition demo_buildUpdateQueries (keys : option (list string)) : list string :=
  map (fun k => "UPDATE T SET N = N + 1 WHERE ID = " ++ k) (demo_orEmpty keys).

Definition demo_buildDeleteQueries (keys : option (list string)) : list string :=
  map (fun k => "DELETE FROM T WHERE ID = " ++ k) (demo_orEmpty keys).

Definition demo_buildSelectQueriesFromUpdates (keys : list string) : list string :=
  map (fun k => "SELECT * FROM T WHERE ID = " ++ k) keys.

(** A data dictionary with two views and two tables of one owner. *)
Definition demo_dictionary (view : string) : list JsObject :=
  if (view =? "ALL_VIEWS")%string then
    [ [("OWNER", JString "HR"); ("VIEW_NAME", JString "V1")];
      [("OWNER", JString "HR"); ("VIEW_NAME", JString "V2")] ]
  else if (view =? "ALL_TABLES")%string then
    [ [("OWNER", JString "HR"); ("TABLE_NAME", JString "T1")];
      [("OWNER", JString "HR"); ("TABLE_NAME", JString "T2")] ]
  else [].

Definition demo_wrapIdentifier (s : string) : string := dquote ++ s ++ dquote.

Definition demo_escapeString (v : FilterValue) (quote : bool) : string :=
  match v with
  | VString s => if quote then "'" ++ s ++ "'" else s
  | VArray vs => Js.join "," vs
  | VUndefined => "undefined"
  end.

Definition demo_wrapLiteral (s : string) : string := s.

Definition demo_joinFilters (fragments : list string) (ops : list TableFilter) : string :=
  Js.join " AND " fragments.


(** A dictionary with a single-column key on [ORDERS] and a two-column key
    on [ORDER_ITEMS], whose columns are stored out of order. *)
Definition demo_constraints : list ConstraintRow :=
  [ {| consOwner := "HR"; consName := "PK_ORDERS"; consType := "P"; consStatus := "ENABLED" |};
    {| consOwner := "HR"; consName := "PK_ITEMS"; consType := "P"; consStatus := "ENABLED" |};
    {| consOwner := "HR"; consName := "FK_ITEMS"; consType := "R"; consStatus := "ENABLED" |} ].

Definition demo_cons_columns : list ConsColumnRow :=
  [ {| colOwner := "HR"; colConstraintName := "PK_ITEMS"; colTableName := "ORDER_ITEMS";
       colColumnName := "LINE_NO"; colPosition := 2 |};
    {| colOwner := "HR"; colConstraintName := "PK_ORDERS"; colTableName := "ORDERS";
       colColumnName := "ID"; colPosition := 1 |};
    {| colOwner := "HR"; colConstraintName := "PK_ITEMS"; colTableName := "ORDER_ITEMS";
       colColumnName := "ORDER_ID"; colPosition := 1 |};
    {| colOwner := "HR"; colConstraintName := "FK_ITEMS"; colTableName := "ORDER_ITEMS";
       colColumnName := "ORDER_ID"; colPosition := 1 |} ].

Definition demo_CANCELED_BY_USER : JsError :=
  {| errName := "CANCELED_BY_USER"; message := Some "Query canceled by user";
     errorNum := None |}.

(** The driver's error for a missing table. *)
Definition demo_ORA_00942 : JsError :=
  {| errName := "Error"; message := Some "ORA-00942: table or view does not exist";
     errorNum := Some 942%Z |}.

(** A driver result with two columns of the same name. *)
Definition demo_twoColumns : DriverResult :=
  {| result := {| metaData := Some [{| metaName := "ID"; dbTypeName := Some "NUMBER" |};
                                    {| metaName := "ID"; dbTypeName := Some "NUMBER" |}];
                  rows := Some [[JNumber 1; JNumber 2]; [JNumber 3; JNumber 4]];
                  rowsAffected := None |};
     info := {| text := "SELECT A.ID, B.ID FROM A, B"; executionType := LISTING |} |}.


(** ** Running a script *)

(** [executeQuery(query)] *)
Definition executeQuery (query : string) (db : Engine)
  : Engine * Completion (list NgQueryResult) :=
  match driverExecuteMultiple query db with
  | (db', Return results) => (db', Return (parseResults results))
  | (db', Throw e) => (db', Throw e)
  end.

(** The texts that [rawExecuteQuery] sends to the engine for a list of
    classified statements. *)
Definition sentTexts (infos : list IdentifyResult) : list string :=
  map (fun q => maybeStripSemicolon (text q) q) infos.

(** ** Paths of the Oracle client libraries *)

(** [platformInfo.isWindows] *)
Variable isWindows : bool.

(** The backslash. *)
Definition backslash : ascii := "092"%char.

(** [path.replaceAll(/\\/g, "\\\\")]: every backslash is doubled. *)
Fixpoint doubleBackslashes (path : string) : string :=
  match path with
  | EmptyString => EmptyString
  | String c rest =>
      if Ascii.eqb c backslash
      then String backslash (String backslash (doubleBackslashes rest))
      else String c (doubleBackslashes rest)
  end.

(** [platformPath(path)]; [None] is an absent path on the way in and [null]
    on the way out. *)
Definition platformPath (path : option string) : option string :=
  match path with
  | None => None
  | Some p =>
      if negb (Js.truthy p) then None
      else if isWindows then Some (doubleBackslashes p)
      else Some p
  end.

(** Reading a doubled path back: each pair of backslashes stands for one. *)
Fixpoint halveBackslashes (path : string) : string :=
  match path with
  | EmptyString => EmptyString
  | String c rest =>
      match rest with
      | String d rest' =>
          if Ascii.eqb c backslash && Ascii.eqb d backslash
          then String backslash (halveBackslashes rest')
          else String c (halveBackslashes rest)
      | EmptyString => String c EmptyString
      end
  end.

(** The number of backslashes of a path. *)
Fixpoint countBackslashes (path : string) : nat :=
  match path with
  | EmptyString => 0
  | String c rest => (if Ascii.eqb c backslash then 1 else 0) + countBackslashes rest
  end.

(** ** Column defaults and types *)

(** [parseDefault(dataDefault)]; [None] is [null] or [undefined]. *)
Definition parseDefault (dataDefault : option string) : option string :=
  match dataDefault with
  | None => None
  | Some d => if negb (Js.truthy d) then None else Some (Js.trimEnd d)
  end.

(** [hasDefault: !_.isNil(this.parseDefault(row.DATA_DEFAULT))], of the
    callback of [listTableColumns]. *)
Definition hasDefault (dataDefault : option string) : bool :=
  match parseDefault dataDefault with Some _ => true | None => false end.

(** ** Indexes *)

(** A row of [ALL_INDEXES]. *)
Record IndexRow : Type := {
  ixName : string;
  ixTableName : string;
  ixOwner : string;
  ixTableOwner : string;
  ixUniqueness : string
}.

(** A row of [ALL_IND_COLUMNS]. *)
Record IndColumnRow : Type := {
  icColumnName : string;
  icPosition : Z;
  icDescend : string;
  icIndexName : string
}.

Variable all_indexes : list IndexRow.
Variable all_ind_columns : list IndColumnRow.

Record IndexColumn : Type := {
  indexColumnName : string;
  indexColumnOrder : string
}.

Record TableIndex : Type := {
  tiId : string;
  tiTable : string;
  tiSchema : string;
  tiName : string;
  tiUnique : bool;
  tiPrimary : bool;
  tiColumns : option (list IndexColumn)
}.

(** One step of lodash's [groupBy]: the value joins the group of its key, or
    opens a new group after the existing ones. *)
Fixpoint groupInsert {A : Type} (groups : list (string * list A)) (key : string) (v : A)
  : list (string * list A) :=
  match groups with
  | [] => [(key, [v])]
  | (k, vs) :: rest =>
      if (k =? key)%string then (k, (vs ++ [v])%list) :: rest
      else (k, vs) :: groupInsert rest key v
  end.

(** [_.groupBy(collection, key)] *)
Definition groupBy {A : Type} (key : A -> string) (collection : list A)
  : list (string * list A) :=
  fold_left (fun groups v => groupInsert groups (key v) v) collection [].

(** [groups[key]]; [None] is [undefined]. *)
Fixpoint groupGet {A : Type} (groups : list (string * list A)) (key : string)
  : option (list A) :=
  match groups with
  | [] => None
  | (k, vs) :: rest => if (k =? key)%string then Some vs else groupGet rest key
  end.

(** [_.sortBy(rows, 'COLUMN_POSITION')]: ascending and stable. *)
Definition sortByPosition (rows : list IndColumnRow) : list IndColumnRow :=
  orderRows (fun a b => (icPosition a <=? icPosition b)%Z) rows.

(** The [WHERE] condition of the first query of [listTableIndexes]. *)
Definition isIndexOf (table : string) (schema : option string) (row : IndexRow) : bool :=
  (ixTableName row =? table)%string
  && match schema with
     | Some s => if Js.truthy s then (ixTableOwner row =? s)%string else true
     | None => true
     end.

(** [listTableIndexes(table, schema)]: both SELECTs are represented by their
    meaning over [ALL_INDEXES] and [ALL_IND_COLUMNS]. *)
Definition listTableIndexes (table : string) (schema : option string) : list TableIndex :=
  let response := filter (isIndexOf table schema) all_indexes in
  let indexes := map ixName response in
  let columnResponse :=
    filter (fun c => existsb (String.eqb (icIndexName c)) indexes) all_ind_columns in
  let columnsGrouped := groupBy icIndexName (sortByPosition columnResponse) in
  mapIdx (fun row idx =>
            {| tiId := Js.natToString idx;
               tiTable := ixTableName row;
               tiSchema := ixOwner row;
               tiName := ixName row;
               tiUnique := (ixUniqueness row =? "UNIQUE")%string;
               tiPrimary := Js.startsWith (ixName row) "PK_";
               tiColumns :=
                 option_map
                   (map (fun column => {| indexColumnName := icColumnName column;
                                          indexColumnOrder := icDescend column |}))
                   (groupGet columnsGrouped (ixName row)) |}) 0 response.

(** ** Triggers *)

Record TableTrigger : Type := {
  triggerName : JsValue;
  triggerTiming : JsValue;
  triggerManipulation : JsValue;
  triggerAction : JsValue;
  triggerCondition : JsValue;
  triggerTable : JsValue;
  triggerSchema : JsValue
}.

(** [listTableTriggers(table, schema)]: calling [toUpperCase] on an omitted
    [schema] throws. *)
Definition listTableTriggers (table : string) (schema : option string)
  : Completion (list TableTrigger) :=
  match schema with
  | None => Throw TypeError
  | Some s =>
      let sql :=
        addClause (addClause (knex "ALL_TRIGGERS") (Where "OWNER" (Js.toUpperCase s)))
                  (Where "TABLE_NAME" table) in
      let response := runSelect sql in
      Return (map (fun row =>
                     {| triggerName := objGet row "TRIGGER_NAME";
                        triggerTiming := objGet row "TRIGGER_TYPE";
                        triggerManipulation := objGet row "TRIGGERING_EVENT";
                        triggerAction := objGet row "TRIGGER_BODY";
                        triggerCondition := JNull;
                        triggerTable := objGet row "TABLE_NAME";
                        triggerSchema := objGet row "TABLE_OWNER" |}) response)
  end.

(** ** Foreign keys *)

(** A row of [all_constraints], with the columns that the foreign-key query
    reads. *)
Record KeyConstraintRow : Type := {
  kcOwner : string;
  kcName : string;
  kcType : string;
  kcTableName : string;
  kcROwner : option string;
  kcRConstraintName : option string;
  kcDeleteRule : option string
}.

Variable all_key_constraints : list KeyConstraintRow.

Record TableKey : Type := {
  keyFromTable : string;
  keyFromSchema : string;
  keyFromColumn : string;
  keyToTable : string;
  keyToColumn : string;
  keyToSchema : string;
  constraintName : string;
  onDelete : option string
}.

(** The [JOIN ... ON] and [WHERE] conditions of the foreign-key query, on a
    row [(a, c, c_pk, r_a)] of the product. *)
Definition isForeignKeyOf (table : string) (schema : option string)
    (r : ConsColumnRow * KeyConstraintRow * KeyConstraintRow * ConsColumnRow) : bool :=
  let '(a, c, c_pk, r_a) := r in
  (colOwner a =? kcOwner c)%string
  && (colConstraintName a =? kcName c)%string
  && match kcROwner c with Some o => (o =? kcOwner c_pk)%string | None => false end
  && match kcRConstraintName c with Some n => (n =? kcName c_pk)%string | None => false end
  && (kcOwner c_pk =? colOwner r_a)%string
  && (kcName c_pk =? colConstraintName r_a)%string
  && (kcType c =? "R")%string
  && (kcType c_pk =? "P")%string
  && (colTableName a =? Js.toUpperCase table)%string
  && match schema with
     | Some s => if Js.truthy s then (colOwner a =? Js.toUpperCase s)%string else true
     | None => true
     end.

(** [getTableKeys(table, schema)]: the SELECT is represented by its meaning
    over the joined dictionary views, in the order of their product. *)
Definition getTableKeys (table : string) (schema : option string) : list TableKey :=
  let response :=
    filter (isForeignKeyOf table schema)
      (list_prod (list_prod (list_prod all_cons_columns all_key_constraints)
                            all_key_constraints) all_cons_columns) in
  map (fun r =>
         let '(a, c, c_pk, r_a) := r in
         {| keyFromTable := colTableName a;
            keyFromSchema := kcOwner c;
            keyFromColumn := colColumnName a;
            keyToTable := kcTableName c_pk;
            keyToColumn := colColumnName r_a;
            keyToSchema := kcOwner c_pk;
            constraintName := colConstraintName a;
            onDelete := kcDeleteRule c |}) response.

(** ** Table properties *)

Record TableProperties : Type := {
  relations : list TableKey;
  tableIndexes : list TableIndex;
  triggers : list TableTrigger;
  owner : string
}.

(** [getTableProperties(table, schema)]: [Promise.all] rejects as soon as one
    of its promises does. *)
Definition getTableProperties (table : string) (schema : option string)
  : Completion TableProperties :=
  let relations := getTableKeys table schema in
  let indexes := listTableIndexes table schema in
  triggers <- listTableTriggers table schema ;;
  Return {| relations := relations; tableIndexes := indexes;
            triggers := triggers; owner := "" |}.


(** ** Rows as records of named cells *)

(** The cell of the last column named [key] among the columns that a row
    has a cell for, if there is one. *)
Fixpoint lastNamed (names : list string) (cells : list JsValue) (key : string)
  : option JsValue :=
  match names, cells with
  | n :: ns, c :: cs =>
      match lastNamed ns cs key with
      | Some v => Some v
      | None => if (n =? key)%string then Some c else None
      end
  | _, _ => None
  end.

(** The order of names that are array indices, by the index. *)
Definition indexLeb (a b : string) : bool :=
  match arrayIndex a, arrayIndex b with
  | Some i, Some j => (i <=? j)%N
  | _, _ => true
  end.

(** Array indices in ascending order. *)
Definition sortIndices (indices : list string) : list string :=
  fold_left (fun sorted key => insertOrdered indexLeb key sorted) indices [].

(** What [Object.keys] lists for an object on which the names [created],
    without repeats, were defined in that order: the array indices among
    them in ascending order, then the other names as they were created. *)
Definition ownKeyOrder (created : list string) : list string :=
  (sortIndices (filter isArrayIndex created)
   ++ filter (fun key => negb (isArrayIndex key)) created)%list.

(** The object of a row under the column [names]: one own property for each
    name that the row has a cell for, holding that cell, listed in the order
    of [Object.keys]. *)
Definition rowObject (names : list string) (r : list JsValue) : JsObject :=
  map (fun key => (key, match lastNamed names r key with
                        | Some cell => cell
                        | None => JUndefined
                        end))
      (ownKeyOrder (firstn (List.length r) names)).

(** The metadata of a driver result, none when it is absent. *)
Definition metaDataOrNone (r : OracleResult) : list Metadata :=
  match metaData r with Some md => md | None => [] end.


(** What every reachable state of a cancelable query satisfies: the
    cancelable promise is tripped only by a [cancel()]; only the connection
    that [execute] holds is ever interrupted; no connection is held before
    one is acquired; the promise is discarded only once [execute] has
    settled. *)
Definition queryInvariant (s : QueryState) : Prop :=
  (canceled s = true -> canceling s = true) /\
  (forall c, In c (interrupted s) -> connection s = Some c) /\
  (phase s = NotCalled \/ phase s = AwaitingConnection -> connection s = None) /\
  (phase s = AwaitingDriver -> connection s <> None /\ discarded s = false) /\
  (discarded s = true -> exists o, phase s = Settled o /\ connection s <> None).


(** The script that [applyChanges] sends as one batch. *)
Definition changeScript (changes : TableChanges) : string :=
  Js.join ";"
    ((buildInsertQueries (inserts changes) ++ buildUpdateQueries (updates changes)
      ++ buildDeleteQueries (deletes changes))
     ++ match updates changes with
        | Some us => buildSelectQueriesFromUpdates us
        | None => []
        end)%list.


(** An engine that rejects the statements that name the table [MISSING] and
    answers the others like [demo_execute]. *)
Definition demo_executeStrict (db : list string) (statement : string)
  : list string * Completion OracleResult :=
  if Js.includes statement "MISSING"
  then ((db ++ [statement])%list, Throw demo_ORA_00942)
  else demo_execute db statement.

(** An engine that answers every statement with two rows of two columns of
    distinct names. *)
Definition demo_executeOrders (db : list string) (statement : string)
  : list string * Completion OracleResult :=
  ((db ++ [statement])%list,
   Return {| metaData := Some [{| metaName := "ID"; dbTypeName := Some "NUMBER" |};
                               {| metaName := "STATUS"; dbTypeName := Some "VARCHAR2" |}];
             rows := Some [[JNumber 1; JString "paid"]; [JNumber 2; JString "sent"]];
             rowsAffected := None |}).

(** An engine that answers every statement with one row of a pivoted table:
    a named column, then two columns named by numbers. *)
Definition demo_executePivot (db : list string) (statement : string)
  : list string * Completion OracleResult :=
  ((db ++ [statement])%list,
   Return {| metaData := Some [{| metaName := "REGION"; dbTypeName := Some "VARCHAR2" |};
                               {| metaName := "2"; dbTypeName := Some "NUMBER" |};
                               {| metaName := "1"; dbTypeName := Some "NUMBER" |}];
             rows := Some [[JString "EU"; JNumber 20; JNumber 10]];
             rowsAffected := None |}).

(** An engine that answers every statement with the two same-named columns
    of [demo_twoColumns]. *)
Definition demo_executeTwoColumns (db : list string) (statement : string)
  : list string * Completion OracleResult :=
  ((db ++ [statement])%list, Return (result demo_twoColumns)).

(** An engine whose rows have one cell more than the metadata describes. *)
Definition demo_executeRagged (db : list string) (statement : string)
  : list string * Completion OracleResult :=
  ((db ++ [statement])%list,
   Return {| metaData := Some [{| metaName := "ID"; dbTypeName := Some "NUMBER" |}];
             rows := Some [[JNumber 1; JNumber 2]];
             rowsAffected := None |}).

(** Two indexes on [ORDER_ITEMS], the columns of the first stored out of
    order, and an index of the same name on another table. *)
Definition demo_indexes : list IndexRow :=
  [ {| ixName := "PK_ITEMS"; ixTableName := "ORDER_ITEMS"; ixOwner := "HR";
       ixTableOwner := "HR"; ixUniqueness := "UNIQUE" |};
    {| ixName := "IX_EMPTY"; ixTableName := "ORDER_ITEMS"; ixOwner := "HR";
       ixTableOwner := "HR"; ixUniqueness := "NONUNIQUE" |};
    {| ixName := "PK_ORDERS"; ixTableName := "ORDERS"; ixOwner := "HR";
       ixTableOwner := "HR"; ixUniqueness := "UNIQUE" |} ].

Definition demo_ind_columns : list IndColumnRow :=
  [ {| icColumnName := "LINE_NO"; icPosition := 2; icDescend := "ASC";
       icIndexName := "PK_ITEMS" |};
    {| icColumnName := "ID"; icPosition := 1; icDescend := "ASC";
       icIndexName := "PK_ORDERS" |};
    {| icColumnName := "ORDER_ID"; icPosition := 1; icDescend := "ASC";
       icIndexName := "PK_ITEMS" |} ].

(** The constraints of [demo_constraints] with their references: the
    foreign key of [ORDER_ITEMS] points at the key of [ORDERS]. *)
Definition demo_key_constraints : list KeyConstraintRow :=
  [ {| kcOwner := "HR"; kcName := "PK_ORDERS"; kcType := "P"; kcTableName := "ORDERS";
       kcROwner := None; kcRConstraintName := None; kcDeleteRule := None |};
    {| kcOwner := "HR"; kcName := "FK_ITEMS"; kcType := "R"; kcTableName := "ORDER_ITEMS";
       kcROwner := Some "HR"; kcRConstraintName := Some "PK_ORDERS";
       kcDeleteRule := Some "CASCADE" |} ].

(** A dictionary with one trigger on [ORDERS]. *)
Definition demo_triggerRow : JsObject :=
  [("OWNER", JString "HR"); ("TRIGGER_NAME", JString "ORDERS_AUDIT");
   ("TRIGGER_TYPE", JString "AFTER EACH ROW"); ("TRIGGERING_EVENT", JString "UPDATE");
   ("TABLE_OWNER", JString "HR"); ("TABLE_NAME", JString "ORDERS");
   ("TRIGGER_BODY", JString "BEGIN NULL; END;")].

Definition demo_triggerDictionary (view : string) : list JsObject :=
  if (view =? "ALL_TRIGGERS")%string then [demo_triggerRow] else demo_dictionary view.


(* ================================================================== *)
(** * Properties *)

(** ** Strings *)

Lemma length_append (s t : string) :
  String.length (s ++ t) = String.length s + String.length t.
Proof. induction s as [|c s IH]; simpl; [reflexivity | now rewrite IH]. Qed.

Lemma append_nil_r (s : string) : s ++ "" = s.
Proof. induction s as [|c s IH]; simpl; [reflexivity | now rewrite IH]. Qed.

Lemma append_assoc (s t u : string) : (s ++ t) ++ u = s ++ t ++ u.
Proof. induction s as [|c s IH]; simpl; [reflexivity | now rewrite IH]. Qed.

Lemma substring_0_all (s : string) : substring 0 (String.length s) s = s.
Proof. induction s as [|c s IH]; simpl; [reflexivity | now rewrite IH]. Qed.

Lemma substring_0_append (s t : string) :
  substring 0 (String.length s) (s ++ t) = s.
Proof.
  induction s as [|c s IH]; simpl.
  - now destruct t.
  - now rewrite IH.
Qed.

Lemma substring_skip_append (s t : string) (n : nat) :
  substring (String.length s) n (s ++ t) = substring 0 n t.
Proof. induction s as [|c s IH]; simpl; [reflexivity | exact IH]. Qed.

(** Every string splits into all but its last [m] characters and the rest. *)
Lemma substring_split (s : string) (k : nat) :
  k <= String.length s ->
  s = substring 0 k s ++ substring k (String.length s - k) s.
Proof.
  revert k; induction s as [|c s IH]; intros k Hk; simpl in *.
  - destruct k; [reflexivity | lia].
  - destruct k as [|k]; simpl.
    + now rewrite substring_0_all.
    + f_equal. apply IH. lia.
Qed.

Lemma String_slice_drop_last (s : string) (c : ascii) :
  Js.String_slice (s ++ String c "") 0 (-1) = s.
Proof.
  unfold Js.String_slice, Js.relIndex.
  rewrite length_append; simpl String.length.
  replace (0 <? 0)%Z with false by reflexivity.
  replace (-1 <? 0)%Z with true by reflexivity.
  rewrite Z.min_l by lia.
  rewrite Z.max_l by lia.
  replace (Z.to_nat 0) with 0 by reflexivity.
  replace (Z.to_nat (Z.of_nat (String.length s + 1) + -1 - 0)) with (String.length s) by lia.
  apply substring_0_append.
Qed.

Lemma endsWith_append (s t : string) : Js.endsWith (s ++ t) t = true.
Proof.
  unfold Js.endsWith. rewrite length_append.
  replace (String.length s + String.length t - String.length t) with (String.length s) by lia.
  rewrite substring_skip_append, substring_0_all, String.eqb_refl.
  rewrite andb_true_r. apply Nat.leb_le. lia.
Qed.

Lemma endsWith_inv (s t : string) :
  Js.endsWith s t = true -> exists p, s = p ++ t.
Proof.
  unfold Js.endsWith. intros H.
  apply andb_true_iff in H as [Hle Heq].
  apply Nat.leb_le in Hle. apply String.eqb_eq in Heq.
  exists (substring 0 (String.length s - String.length t) s).
  rewrite (substring_split s (String.length s - String.length t)) at 1 by lia.
  f_equal. rewrite <- Heq at 3. f_equal. lia.
Qed.

Lemma prefix_append (p s : string) : prefix p s = true <-> exists rest, s = p ++ rest.
Proof.
  revert s; induction p as [|c p IH]; intros s.
  - split; [intros _; now exists s | intros _; now destruct s].
  - destruct s as [|d s]; simpl.
    + split; [discriminate | intros [rest H]; discriminate].
    + destruct (ascii_dec c d) as [->|Hne].
      * rewrite IH. split; intros [rest H]; exists rest; [now rewrite H | now injection H].
      * split; [discriminate | intros [rest H]; injection H as H _; congruence].
Qed.

Lemma includes_unfold (s needle : string) :
  Js.includes s needle =
  prefix needle s || match s with
                     | EmptyString => false
                     | String _ rest => Js.includes rest needle
                     end.
Proof. destruct s; reflexivity. Qed.

(** [includes] holds exactly of the strings that contain the needle. *)
Lemma includes_spec (s needle : string) :
  Js.includes s needle = true <-> exists before rest, s = before ++ needle ++ rest.
Proof.
  split.
  - induction s as [|c s IH]; rewrite includes_unfold; intros H;
      apply orb_true_iff in H as [H|H].
    + apply prefix_append in H as [rest H]. now exists "", rest.
    + discriminate.
    + apply prefix_append in H as [rest H]. now exists "", rest.
    + destruct (IH H) as (before & rest & ->). now exists (String c before), rest.
  - intros (before & rest & ->). induction before as [|c before IH].
    + rewrite includes_unfold.
      replace (prefix needle ("" ++ needle ++ rest)) with true; [reflexivity|].
      symmetry. apply prefix_append. now exists rest.
    + change (String c before ++ needle ++ rest) with (String c (before ++ needle ++ rest)).
      rewrite includes_unfold. cbv beta iota. rewrite IH. apply orb_true_r.
Qed.


Lemma trimEnd_empty_iff (s : string) : Js.trimEnd s = "" <-> allWhiteSpace s = true.
Proof.
  induction s as [|c s IH]; simpl.
  - split; reflexivity.
  - destruct (Js.trimEnd s) eqn:E.
    + destruct (Js.isWhiteSpace c); simpl.
      * split; intros _; [now apply IH | reflexivity].
      * split; discriminate.
    + split; [discriminate|].
      intros H. apply andb_true_iff in H as [_ H]. apply IH in H. discriminate.
Qed.

(** [trimEnd] removes a suffix of white space, and nothing else. *)
Lemma trimEnd_suffix (s : string) :
  exists w, s = Js.trimEnd s ++ w /\ allWhiteSpace w = true.
Proof.
  induction s as [|c s (w & Hs & Hw)]; simpl.
  - exists ""; split; reflexivity.
  - destruct (Js.trimEnd s) eqn:E.
    + simpl in Hs. subst w.
      destruct (Js.isWhiteSpace c) eqn:Ec.
      * exists (String c s); split; [reflexivity | simpl; now rewrite Ec, Hw].
      * exists s; split; [reflexivity | exact Hw].
    + exists w; split; [|exact Hw]. simpl. now rewrite Hs at 1.
Qed.

Lemma trimEnd_length (s : string) : String.length (Js.trimEnd s) <= String.length s.
Proof.
  destruct (trimEnd_suffix s) as (w & Hs & _).
  rewrite Hs at 2. rewrite length_append. lia.
Qed.

(** ** The trailing semicolon *)

Lemma ExecutionType_eqb_eq (a b : ExecutionType) :
  ExecutionType_eqb a b = true <-> a = b.
Proof. destruct a, b; simpl; split; intros H; try reflexivity; discriminate. Qed.

Lemma maybeStripSemicolon_block (query : string) (i : IdentifyResult) :
  executionType i = ANON_BLOCK -> maybeStripSemicolon query i = query.
Proof. unfold maybeStripSemicolon. now intros ->. Qed.

Lemma maybeStripSemicolon_ordinary (query : string) (i : IdentifyResult) :
  executionType i <> ANON_BLOCK ->
  maybeStripSemicolon query i =
    if Js.endsWith (Js.trimEnd query) ";"
    then Js.String_slice (Js.trimEnd query) 0 (-1) else query.
Proof.
  intros H. unfold maybeStripSemicolon.
  destruct (ExecutionType_eqb (executionType i) ANON_BLOCK) eqn:E; [|reflexivity].
  now apply ExecutionType_eqb_eq in E.
Qed.

(** C7. A statement classified as an anonymous block is forwarded unchanged.
    Any other statement whose text, once its trailing white space is
    trimmed, ends in a semicolon is forwarded as that trimmed text without
    its final semicolon (so the text was [s ++ ";" ++ w] with [w] white
    space, and [s] is sent); one that does not end in a semicolon is
    forwarded unchanged.  Hence the text changes exactly when the statement
    is not an anonymous block and ends in a semicolon. *)
Theorem maybeStripSemicolon_spec (query : string) (i : IdentifyResult) :
  (executionType i = ANON_BLOCK -> maybeStripSemicolon query i = query) /\
  (executionType i <> ANON_BLOCK ->
   forall s, Js.trimEnd query = s ++ ";" ->
     maybeStripSemicolon query i = s /\
     exists w, query = s ++ ";" ++ w /\ allWhiteSpace w = true) /\
  (executionType i <> ANON_BLOCK ->
   (forall s, Js.trimEnd query <> s ++ ";") ->
   maybeStripSemicolon query i = query) /\
  (maybeStripSemicolon query i <> query <->
   executionType i <> ANON_BLOCK /\ exists s, Js.trimEnd query = s ++ ";").
Proof.
  assert (Hstrip : executionType i <> ANON_BLOCK ->
            forall s, Js.trimEnd query = s ++ ";" -> maybeStripSemicolon query i = s).
  { intros Hi s Hs. rewrite maybeStripSemicolon_ordinary by exact Hi.
    rewrite Hs, endsWith_append. apply String_slice_drop_last. }
  split; [apply maybeStripSemicolon_block|].
  split.
  { intros Hi s Hs. split; [now apply Hstrip|].
    destruct (trimEnd_suffix query) as (w & Hq & Hw).
    exists w. split; [|exact Hw].
    rewrite Hq at 1. rewrite Hs. apply append_assoc. }
  split.
  { intros Hi Hno. rewrite maybeStripSemicolon_ordinary by exact Hi.
    destruct (Js.endsWith (Js.trimEnd query) ";") eqn:E; [|reflexivity].
    apply endsWith_inv in E as [p Hp]. now apply Hno in Hp. }
  split.
  - intros Hne.
    destruct (ExecutionType_eqb (executionType i) ANON_BLOCK) eqn:E.
    + apply ExecutionType_eqb_eq in E.
      now rewrite maybeStripSemicolon_block in Hne.
    + assert (Hi : executionType i <> ANON_BLOCK).
      { intros Hb. apply ExecutionType_eqb_eq in Hb. congruence. }
      split; [exact Hi|].
      rewrite maybeStripSemicolon_ordinary in Hne by exact Hi.
      destruct (Js.endsWith (Js.trimEnd query) ";") eqn:Ee; [|congruence].
      now apply endsWith_inv in Ee.
  - intros (Hi & s & Hs) Heq.
    rewrite (Hstrip Hi s Hs) in Heq.
    pose proof (trimEnd_length query) as Hlen.
    rewrite Hs, length_append, Heq in Hlen. simpl in Hlen. lia.
Qed.


(** ** SELECT generation *)

Lemma mapM_Forall2 {A B : Type} (f : A -> Completion B) (l : list A) (ys : list B) :
  mapM f l = Return ys -> Forall2 (fun x y => f x = Return y) l ys.
Proof.
  revert ys; induction l as [|x l IH]; simpl; intros ys H.
  - injection H as <-. constructor.
  - destruct (f x) as [y|e] eqn:Ex; simpl in H; [|discriminate].
    destruct (mapM f l) as [ys'|e] eqn:El; simpl in H; [|discriminate].
    injection H as <-. constructor; [exact Ex | now apply IH].
Qed.

Lemma mapM_total {A B : Type} (f : A -> Completion B) (l : list A) :
  (forall x, In x l -> exists y, f x = Return y) -> exists ys, mapM f l = Return ys.
Proof.
  induction l as [|x l IH]; simpl; intros H.
  - now exists [].
  - destruct (H x (or_introl eq_refl)) as [y Hy].
    destruct IH as [ys Hys]; [intros z Hz; apply H; now right|].
    exists (y :: ys). now rewrite Hy, Hys.
Qed.

Lemma genFilterItem_returns (item : TableFilter) :
  (filterType item = "in" -> exists vs, filterValue item = VArray vs) ->
  exists fragment, genFilterItem item = Return fragment.
Proof.
  intros H. unfold genFilterItem.
  destruct (filterType item =? "in")%string eqn:E.
  - apply String.eqb_eq in E. destruct (H E) as [vs ->]. eauto.
  - destruct (Js.includes (filterType item) "is"); eauto.
Qed.

(** C5. The fragment generated for an entry of type "is" (resp. "is not")
    is the wrapped field followed by [IS NULL] (resp. [IS NOT NULL]),
    whatever value the entry carries; the fragment for an entry of type "in"
    lists its values, each escaped on its own, joined by commas.  The WHERE
    clause of a non-empty filter list is [joinFilters] of these fragments,
    one per entry in order, and it is generated as soon as every "in" entry
    carries an array. *)
Theorem genFilters_fragments (filters : list TableFilter) :
  (forall item, filterType item = "is" ->
     genFilterItem item = Return (wrapIdentifier (filterField item) ++ " IS NULL")) /\
  (forall item, filterType item = "is not" ->
     genFilterItem item = Return (wrapIdentifier (filterField item) ++ " IS NOT NULL")) /\
  (forall item vs, filterType item = "in" -> filterValue item = VArray vs ->
     genFilterItem item =
       Return (wrapIdentifier (filterField item) ++ " IN ("
               ++ Js.join "," (map (fun v => escapeString (VString v) true) vs) ++ ")")) /\
  (filters <> [] ->
   forall clause, genFilters (Some filters) = Return clause ->
     exists fragments,
       clause = "WHERE " ++ joinFilters fragments filters /\
       Forall2 (fun item fragment => genFilterItem item = Return fragment)
               filters fragments) /\
  (filters <> [] ->
   (forall item, In item filters -> filterType item = "in" ->
      exists vs, filterValue item = VArray vs) ->
   exists clause, genFilters (Some filters) = Return clause).
Proof.
  split; [|split; [|split; [|split]]].
  - intros item H. unfold genFilterItem. now rewrite H.
  - intros item H. unfold genFilterItem. now rewrite H.
  - intros item vs Ht Hv. unfold genFilterItem. now rewrite Ht, Hv.
  - intros Hne clause H. unfold genFilters in H.
    destruct filters as [|f fs]; [congruence|].
    cbn [List.length Nat.ltb Nat.leb] in H.
    destruct (mapM genFilterItem (f :: fs)) as [fragments|e] eqn:E; simpl in H;
      [|discriminate].
    injection H as <-. exists fragments. split; [reflexivity|].
    now apply mapM_Forall2.
  - intros Hne Hin. unfold genFilters.
    destruct filters as [|f fs]; [congruence|].
    cbn [List.length Nat.ltb Nat.leb].
    destruct (mapM_total genFilterItem (f :: fs)) as [ys Hys].
    + intros x Hx. apply genFilterItem_returns. intros Ht. now apply Hin.
    + rewrite Hys. simpl. eauto.
Qed.

(** C4. The generated query is the text of the template with, on its last
    line but one, the pagination clause
    [OFFSET offset ROWS FETCH NEXT limit ROWS ONLY] when [offset] and [limit]
    are both numbers, and nothing when either is not.  Whenever the filters
    give a WHERE clause [fs] the query is returned, and it differs from the
    query generated with both omitted by that clause alone; with raw or absent
    filters this is always so.  The emitted text is not empty exactly when
    both are numbers, so with one of the two omitted the query is the one
    generated with both omitted.  An error raised for the filters is the only
    way not to return.  The numbers are those that [JNumber] and
    [JNumberOther] stand for. *)
Theorem genSelect_pagination (table : string) (orderBy : option (list OrderBy))
    (filters : Filters) (schema : option string) (count : bool) (selects : list string)
    (offset limit : JsValue) :
  representable offset = true ->
  representable limit = true ->
  let filterString :=
    match filters with
    | FiltersRaw s => Return ("WHERE " ++ wrapLiteral s)
    | FiltersList l => genFilters (Some l)
    | FiltersNone => genFilters None
    end in
  let clause :=
    "OFFSET " ++ numberToString offset ++ " ROWS FETCH NEXT " ++ numberToString limit
      ++ " ROWS ONLY" in
  let emitted := if isNumber offset && isNumber limit then clause else "" in
  let queryWith (fs page : string) :=
    nl ++ "      SELECT " ++
    (if count then "COUNT(1) as TOTAL"
     else Js.join ", "
            (map (fun s => if (s =? "*")%string then "*" else wrapIdentifier s) selects))
    ++ " " ++
    (nl ++ "      FROM " ++
     match schema with
     | Some s => if Js.truthy s then wrapIdentifier s ++ "." else ""
     | None => ""
     end ++ wrapIdentifier table ++
     nl ++ "      " ++ fs ++
     nl ++ "    ") ++
    nl ++ "      " ++ genOrderByString orderBy ++
    nl ++ "      " ++ page ++
    nl ++ "    " in
  (forall fs, filterString = Return fs ->
     genSelect table offset limit orderBy filters schema count selects
       = Return (queryWith fs emitted) /\
     genSelect table JUndefined JUndefined orderBy filters schema count selects
       = Return (queryWith fs "")) /\
  (forall e, filterString = Throw e ->
     genSelect table offset limit orderBy filters schema count selects = Throw e) /\
  ((forall l, filters <> FiltersList l) -> exists fs, filterString = Return fs) /\
  (emitted <> "" <-> isNumber offset = true /\ isNumber limit = true) /\
  (isNumber offset && isNumber limit = false ->
     genSelect table offset limit orderBy filters schema count selects =
       genSelect table JUndefined JUndefined orderBy filters schema count selects) /\
  (forall o l, offset = JNumber o -> limit = JNumber l ->
     emitted = "OFFSET " ++ Js.intToString o ++ " ROWS FETCH NEXT " ++ Js.intToString l
                 ++ " ROWS ONLY").
Proof.
  intros _ _. cbv zeta. unfold genSelect.
  split; [|split; [|split; [|split; [|split]]]].
  - intros fs ->. simpl. split; reflexivity.
  - intros e ->. reflexivity.
  - intros H. destruct filters as [raw|l|].
    + eexists; reflexivity.
    + now elim (H l).
    + eexists; reflexivity.
  - destruct (isNumber offset), (isNumber limit); simpl; split;
      solve [ intros _; split; reflexivity | intros _; discriminate
            | intros H; now elim H | intros [? ?]; discriminate ].
  - intros H. rewrite H. reflexivity.
  - intros o l -> ->. reflexivity.
Qed.


(** ** Field ids and row objects *)

Lemma natToString_inj (m n : nat) : Js.natToString m = Js.natToString n -> m = n.
Proof.
  unfold Js.natToString. intros H.
  apply Unsigned.to_uint_inj.
  assert (E : NilEmpty.uint_of_string (NilEmpty.string_of_uint (Nat.to_uint m))
              = NilEmpty.uint_of_string (NilEmpty.string_of_uint (Nat.to_uint n)))
    by now rewrite H.
  rewrite !NilEmpty.usu in E. now injection E.
Qed.

Lemma mapIdx_nth_error {A B : Type} (f : A -> nat -> B) (k n : nat) (l : list A) :
  nth_error (mapIdx f k l) n = option_map (fun x => f x (k + n)) (nth_error l n).
Proof.
  revert k n; induction l as [|x l IH]; intros k n; simpl.
  - now destruct n.
  - destruct n as [|n]; simpl.
    + now rewrite Nat.add_0_r.
    + rewrite IH. now rewrite Nat.add_succ_r.
Qed.

Lemma mapIdx_length {A B : Type} (f : A -> nat -> B) (k : nat) (l : list A) :
  List.length (mapIdx f k l) = List.length l.
Proof. revert k; induction l as [|x l IH]; intros k; simpl; [reflexivity | now rewrite IH]. Qed.

Lemma metaToFields_nth (metaData : option (list Metadata)) (n : nat) (f : FieldDescriptor) :
  nth_error (metaToFields metaData) n = Some f ->
  id f = "c" ++ Js.natToString n /\
  exists l meta, metaData = Some l /\ nth_error l n = Some meta /\
                 fieldName f = metaName meta /\ dataType f = dbTypeName meta.
Proof.
  destruct metaData as [l|]; simpl.
  - rewrite mapIdx_nth_error. destruct (nth_error l n) as [meta|] eqn:E; simpl; [|discriminate].
    intros [= <-]. simpl. split; [reflexivity|]. now exists l, meta.
  - now destruct n.
Qed.

Lemma metaToFields_ids_NoDup (metaData : option (list Metadata)) :
  NoDup (map id (metaToFields metaData)).
Proof.
  apply (proj2 (NoDup_nth_error _)).
  intros i j Hi E.
  rewrite length_map in Hi.
  rewrite !nth_error_map in E.
  destruct (nth_error (metaToFields metaData) i) as [fi|] eqn:Ei.
  2:{ apply nth_error_None in Ei. lia. }
  destruct (nth_error (metaToFields metaData) j) as [fj|] eqn:Ej; [|discriminate].
  apply metaToFields_nth in Ei as [Hi' _].
  apply metaToFields_nth in Ej as [Hj' _].
  simpl in E. injection E as E. rewrite Hi', Hj' in E.
  injection E as E. now apply natToString_inj.
Qed.

Lemma hasOwnProperty_In (obj : JsObject) (key : string) :
  hasOwnProperty obj key = true <-> In key (Object_keys obj).
Proof.
  unfold hasOwnProperty. rewrite existsb_exists. split.
  - intros (k & Hk & E). apply String.eqb_eq in E. now subst.
  - intros H. exists key. split; [exact H | apply String.eqb_refl].
Qed.

Lemma hasOwnProperty_fresh (obj : JsObject) (key : string) :
  ~ In key (Object_keys obj) -> hasOwnProperty obj key = false.
Proof.
  intros H. destruct (hasOwnProperty obj key) eqn:E; [|reflexivity].
  now apply hasOwnProperty_In in E.
Qed.

Lemma objDefine_fresh (obj : JsObject) (key : string) (value : JsValue) :
  ~ In key (Object_keys obj) -> arrayIndex key = None ->
  objDefine obj key value = (obj ++ [(key, value)])%list.
Proof.
  intros H E. unfold objDefine. now rewrite hasOwnProperty_fresh, E.
Qed.

Lemma baseZipObject_distinct (result : JsObject) (props : list string) (values : list JsValue) :
  NoDup (Object_keys result ++ props)%list ->
  Forall (fun p => arrayIndex p = None) props ->
  baseZipObject result props values = (result ++ pairUp props values)%list.
Proof.
  revert result values; induction props as [|p ps IH]; intros result values H Hidx; simpl.
  - now rewrite app_nil_r.
  - inversion Hidx as [|? ? Hp Hps]; subst.
    unfold assignValue. rewrite objDefine_fresh; [| |exact Hp].
    + rewrite IH; [| |exact Hps].
      * now rewrite <- app_assoc.
      * unfold Object_keys in *. rewrite map_app. simpl. now rewrite <- app_assoc.
    + apply NoDup_remove_2 in H. intros Hin. apply H. apply in_or_app. now left.
Qed.

Lemma zipObject_distinct (props : list string) (values : list JsValue) :
  NoDup props -> Forall (fun p => arrayIndex p = None) props ->
  zipObject props values = pairUp props values.
Proof. intros H Hidx. unfold zipObject. now rewrite baseZipObject_distinct. Qed.

(** No field id is an array index: it starts with the letter [c]. *)
Lemma metaToFields_ids_not_index (metaData : option (list Metadata)) :
  Forall (fun p => arrayIndex p = None) (map id (metaToFields metaData)).
Proof.
  destruct metaData as [l|]; simpl; [|constructor].
  generalize 0. induction l as [|meta l IH]; intros k; simpl; constructor.
  - reflexivity.
  - apply IH.
Qed.

Lemma pairUp_keys (props : list string) (values : list JsValue) :
  Object_keys (pairUp props values) = props.
Proof.
  unfold Object_keys. revert values; induction props as [|p ps IH]; intros values; simpl;
    [reflexivity | now rewrite IH].
Qed.

(** C8. The field at index [n] of a result has id [c<n>]; the ids of a
    result are pairwise distinct, whatever the names of the source columns;
    there is one field per metadata entry, carrying its name; and every row
    object of [parseResult] pairs these ids, in the order of the fields
    list, with the cells of the driver's row, so its keys are exactly the ids
    of the fields list in that order. *)
Theorem parseResult_field_ids (r : DriverResult) :
  let res := parseResult r in
  (forall n f, nth_error (fields res) n = Some f -> id f = "c" ++ Js.natToString n) /\
  NoDup (map id (fields res)) /\
  List.length (fields res)
    = match metaData (result r) with Some l => List.length l | None => 0 end /\
  resultRows res
    = match rows (result r) with
      | Some rs => map (pairUp (map id (fields res))) rs
      | None => []
      end /\
  (forall row, In row (resultRows res) -> Object_keys row = map id (fields res)).
Proof.
  assert (Hrows : resultRows (parseResult r)
                  = match rows (result r) with
                    | Some rs => map (pairUp (map id (fields (parseResult r)))) rs
                    | None => []
                    end).
  { simpl. destruct (rows (result r)) as [rs|]; [|reflexivity].
    apply map_ext. intros row.
    apply zipObject_distinct; [apply metaToFields_ids_NoDup | apply metaToFields_ids_not_index]. }
  cbv zeta. split; [|split; [|split; [|split]]].
  - intros n f H. now apply metaToFields_nth in H.
  - apply metaToFields_ids_NoDup.
  - simpl. destruct (metaData (result r)); simpl; [apply mapIdx_length | reflexivity].
  - exact Hrows.
  - intros row Hin. rewrite Hrows in Hin.
    destruct (rows (result r)) as [rs|]; [|contradiction].
    apply in_map_iff in Hin as (cells & <- & _). apply pairUp_keys.
Qed.


(** ** Browsing an empty table *)

Lemma driverExecuteSimple_no_rows (q : string) (db db' : Engine) (dr : DriverResult) :
  driverExecuteSingle q db = (db', Return dr) ->
  rows (result dr) = Some [] ->
  driverExecuteSimple q db = (db', Return []).
Proof. intros H Hr. unfold driverExecuteSimple. now rewrite H, Hr. Qed.

(** C10. When the generated query runs and yields zero rows, [selectTop]
    returns normally, with an empty [result] and an empty [fields]: the
    first row is read through the guarded access [result[0] || {}]. *)
Theorem selectTop_no_rows (table : string) (offset limit : JsValue)
    (orderBy : option (list OrderBy)) (filters : Filters)
    (schema : option string) (selects : option (list string))
    (db db' : Engine) (q : string) :
  genSelect table offset limit orderBy filters
    (Some (match schema with Some s => s | None => defaultSchema end)) false
    (match selects with Some l => l | None => ["*"] end) = Return q ->
  (driverExecuteSimple q db = (db', Return []) ->
   selectTop table offset limit orderBy filters schema selects db
     = (db', Return {| trResult := []; trFields := [] |})) /\
  (forall dr, driverExecuteSingle q db = (db', Return dr) ->
     rows (result dr) = Some [] ->
     selectTop table offset limit orderBy filters schema selects db
       = (db', Return {| trResult := []; trFields := [] |})).
Proof.
  intros Hq.
  assert (H : driverExecuteSimple q db = (db', Return []) ->
              selectTop table offset limit orderBy filters schema selects db
              = (db', Return {| trResult := []; trFields := [] |})).
  { intros Hs. unfold selectTop. now rewrite Hq, Hs. }
  split; [exact H|].
  intros dr Hd Hr. apply H. now apply driverExecuteSimple_no_rows with dr.
Qed.

(** ** Applying a change set *)

Lemma Array_slice_tail_but_last {A : Type} (others sel : list A) :
  Js.Array_slice (others ++ sel)%list
    (Z.of_nat (List.length (others ++ sel)%list) - Z.of_nat (List.length sel)) (-1)
  = removelast sel.
Proof.
  unfold Js.Array_slice, Js.relIndex.
  rewrite length_app.
  replace (-1 <? 0)%Z with true by reflexivity.
  destruct (Z.ltb_spec
              (Z.of_nat (List.length others + List.length sel) - Z.of_nat (List.length sel)) 0)
    as [Hneg|_]; [lia|].
  rewrite Z.min_l by lia.
  replace (Z.to_nat (Z.of_nat (List.length others + List.length sel)
                     - Z.of_nat (List.length sel))) with (List.length others + 0) by lia.
  rewrite skipn_app, skipn_all2 by lia.
  replace (List.length others + 0 - List.length others) with 0 by lia.
  simpl skipn. rewrite removelast_firstn_len. f_equal.
  destruct sel; simpl List.length; lia.
Qed.

(** What [applyChanges] returns when the batch runs and its last results are
    the reselects, one per update: all of them but the last. *)
Lemma applyChanges_reselects (changes : TableChanges) (us : list TableUpdate)
    (db db' : Engine) (others sel : list DriverResult) :
  updates changes = Some us ->
  driverExecuteMultiple
    (Js.join ";" (buildInsertQueries (inserts changes) ++ buildUpdateQueries (updates changes)
                  ++ buildDeleteQueries (deletes changes)
                  ++ buildSelectQueriesFromUpdates us)%list) db
    = (db', Return (others ++ sel)%list) ->
  List.length sel = List.length us ->
  applyChanges changes db = (db', Return (removelast sel)).
Proof.
  intros Hu Hrun Hlen. unfold applyChanges. rewrite Hu in *.
  rewrite <- !app_assoc. rewrite Hrun. rewrite <- Hlen.
  now rewrite Array_slice_tail_but_last.
Qed.

Lemma applyChanges_no_updates (changes : TableChanges) (db db' : Engine)
    (results : list DriverResult) :
  updates changes = None ->
  driverExecuteMultiple
    (Js.join ";" (buildInsertQueries (inserts changes) ++ buildUpdateQueries (updates changes)
                  ++ buildDeleteQueries (deletes changes))%list) db
    = (db', Return results) ->
  applyChanges changes db = (db', Return []).
Proof. intros Hu Hrun. unfold applyChanges. rewrite Hu in *. now rewrite Hrun. Qed.


(** ** Primary keys *)

Lemma insertOrdered_Permutation {A : Type} (leb : A -> A -> bool) (x : A) (l : list A) :
  Permutation (insertOrdered leb x l) (x :: l).
Proof.
  induction l as [|y l IH]; simpl.
  - apply Permutation_refl.
  - destruct (leb x y).
    + apply Permutation_refl.
    + eapply perm_trans; [apply perm_skip, IH | apply perm_swap].
Qed.

Lemma orderRows_Permutation {A : Type} (leb : A -> A -> bool) (l : list A) :
  Permutation (orderRows leb l) l.
Proof.
  induction l as [|x l IH]; simpl.
  - apply perm_nil.
  - eapply perm_trans; [apply insertOrdered_Permutation | now apply perm_skip].
Qed.

Section Ordering.

Context {A : Type} (leb : A -> A -> bool).
Hypothesis leb_total : forall a b, leb a b = false -> leb b a = true.

Local Abbreviation le := (fun a b : A => leb a b = true).

Lemma insertOrdered_HdRel (a x : A) (l : list A) :
  le a x -> HdRel le a l -> HdRel le a (insertOrdered leb x l).
Proof.
  intros Hax Hl. destruct l as [|y l]; simpl.
  - now constructor.
  - destruct (leb x y); constructor; [exact Hax | now apply HdRel_inv in Hl].
Qed.

Lemma insertOrdered_Sorted (x : A) (l : list A) :
  Sorted le l -> Sorted le (insertOrdered leb x l).
Proof using leb_total.
  induction l as [|y l IH]; simpl; intros Hs.
  - repeat constructor.
  - destruct (leb x y) eqn:E.
    + constructor; [exact Hs | now constructor].
    + apply Sorted_inv in Hs as [Hs Hd].
      constructor; [now apply IH|].
      apply insertOrdered_HdRel; [now apply leb_total | exact Hd].
Qed.

Lemma orderRows_Sorted (l : list A) : Sorted le (orderRows leb l).
Proof using leb_total.
  induction l as [|x l IH]; simpl; [constructor | now apply insertOrdered_Sorted].
Qed.

End Ordering.

Lemma byTableThenPosition_total (a b : ConstraintRow * ConsColumnRow) :
  byTableThenPosition a b = false -> byTableThenPosition b a = true.
Proof.
  unfold byTableThenPosition.
  rewrite (String.compare_antisym (colTableName (snd a)) (colTableName (snd b))).
  destruct (String.compare (colTableName (snd b)) (colTableName (snd a))); simpl;
    intros H; try discriminate; try reflexivity.
  apply Z.leb_le. apply Z.leb_gt in H. lia.
Qed.

Lemma compare_refl (t : string) : String.compare t t = Eq.
Proof.
  pose proof (String.compare_antisym t t) as H.
  destruct (String.compare t t); simpl in H; try discriminate; reflexivity.
Qed.

(** Within one table the [ORDER BY] is the order of the positions. *)
Lemma byTableThenPosition_same_table (t : string) (a b : ConstraintRow * ConsColumnRow) :
  colTableName (snd a) = t -> colTableName (snd b) = t ->
  byTableThenPosition a b = true -> (colPosition (snd a) <= colPosition (snd b))%Z.
Proof.
  unfold byTableThenPosition. intros -> Hb. rewrite Hb.
  rewrite compare_refl. apply Z.leb_le.
Qed.

Lemma Sorted_map_within {A B : Type} (P : A -> Prop) (R : A -> A -> Prop)
    (R' : B -> B -> Prop) (f : A -> B) (l : list A) :
  (forall a b, P a -> P b -> R a b -> R' (f a) (f b)) ->
  Forall P l -> Sorted R l -> Sorted R' (map f l).
Proof.
  intros HR HP Hs. induction Hs as [|a l Hs IH Hd]; simpl; [constructor|].
  apply Forall_cons_iff in HP as [Pa Pl].
  constructor; [now apply IH|].
  destruct Hd as [|b l' Hab]; simpl; constructor.
  apply HR; [exact Pa | | exact Hab].
  now apply Forall_cons_iff in Pl as [Pb _].
Qed.

Lemma isPrimaryKeyColumnOf_table (table : string) (schema : option string)
    (r : ConstraintRow * ConsColumnRow) :
  isPrimaryKeyColumnOf table schema r = true -> colTableName (snd r) = table.
Proof.
  destruct r as [cons cols]. unfold isPrimaryKeyColumnOf. simpl. intros H.
  repeat (apply andb_true_iff in H as [H _]). now apply String.eqb_eq.
Qed.

(** C6. [getPrimaryKey] returns a column name exactly when [getPrimaryKeys]
    returns a single entry, and then it is the name of that entry; it
    returns [null], and does not fail, when there are no entries or two and
    more.  The entries of [getPrimaryKeys] come in non-decreasing order of
    their position, and they are the primary-key columns of the table that
    the dictionary holds, none lost and none added. *)
Theorem getPrimaryKey_single (table : string) (schema : option string) :
  (forall c, getPrimaryKey table schema = Some c <->
             exists pk, getPrimaryKeys table schema = [pk] /\ columnName pk = c) /\
  (List.length (getPrimaryKeys table schema) <> 1 -> getPrimaryKey table schema = None) /\
  StronglySorted (fun a b => (position a <= position b)%Z) (getPrimaryKeys table schema) /\
  Permutation (getPrimaryKeys table schema)
    (map (fun row => {| columnName := colColumnName (snd row);
                        position := colPosition (snd row) |})
         (filter (isPrimaryKeyColumnOf table schema)
                 (list_prod all_constraints all_cons_columns))).
Proof.
  split; [|split; [|split]].
  - intros c. unfold getPrimaryKey.
    destruct (getPrimaryKeys table schema) as [|pk [|pk' rest]]; simpl.
    + split; [discriminate | intros (pk & H & _); discriminate].
    + split.
      * intros [= <-]. now exists pk.
      * intros (pk0 & [= <-] & <-). reflexivity.
    + split; [discriminate | intros (pk0 & H & _); discriminate].
  - intros H. unfold getPrimaryKey.
    destruct (List.length (getPrimaryKeys table schema) =? 1)%nat eqn:E; [|reflexivity].
    apply Nat.eqb_eq in E. contradiction.
  - apply Sorted_StronglySorted.
    + intros a b c Hab Hbc. lia.
    + unfold getPrimaryKeys.
      apply Sorted_map_within with
        (P := fun r => colTableName (snd r) = table)
        (R := fun a b => byTableThenPosition a b = true).
      * intros a b Ha Hb Hab. simpl.
        now apply byTableThenPosition_same_table with table.
      * eapply Permutation_Forall.
        { apply Permutation_sym, orderRows_Permutation. }
        apply Forall_forall. intros r Hr. apply filter_In in Hr as [_ Hr].
        now apply isPrimaryKeyColumnOf_table in Hr.
      * apply orderRows_Sorted. exact byTableThenPosition_total.
  - unfold getPrimaryKeys. apply Permutation_map, orderRows_Permutation.
Qed.


(** ** Listing tables and views *)

Lemma existsb_eqb_In (s : string) (l : list string) :
  existsb (String.eqb s) l = true <-> In s l.
Proof.
  rewrite existsb_exists. split.
  - intros (x & Hx & E). apply String.eqb_eq in E. now subst.
  - intros H. exists s. split; [exact H | apply String.eqb_refl].
Qed.

Lemma runSelect_addClause (builder : QueryBuilder) (c : WhereClause) (row : JsObject) :
  In row (runSelect (addClause builder c)) <-> In row (runSelect builder) /\ holds row c = true.
Proof.
  unfold runSelect, addClause. simpl. rewrite !filter_In, forallb_app. simpl.
  rewrite andb_true_r, andb_true_iff.
  split; [intros (H1 & H2 & H3) | intros ((H1 & H2) & H3)]; auto.
Qed.

Lemma holds_WhereIn (row : JsObject) (column : string) (values : list string) :
  holds row (WhereIn column values) = true <->
  exists s, objGet row column = JString s /\ In s values.
Proof.
  simpl. destruct (objGet row column) as [| |z|s|p|n];
    try (split; [discriminate | now intros (s' & H & _)]).
  rewrite existsb_eqb_In. split.
  - intros H. now exists s.
  - now intros (s' & [= <-] & H).
Qed.

Lemma holds_WhereNotIn (row : JsObject) (column : string) (values : list string) :
  holds row (WhereNotIn column values) = true <->
  exists s, objGet row column = JString s /\ ~ In s values.
Proof.
  simpl. destruct (objGet row column) as [| |z|s|p|n];
    try (split; [discriminate | now intros (s' & H & _)]).
  rewrite negb_true_iff, <- not_true_iff_false, existsb_eqb_In. split.
  - intros H. now exists s.
  - now intros (s' & [= <-] & H).
Qed.

(** With both lists given, [listTables] returns the tables in scope whose
    name is in the only-list and not in the ignore-list. *)
Lemma listTables_only_ignore (sch : option string) (names ignored : list string)
    (e : TableOrView) :
  let filter := Some {| filterSchema := sch; only := Some names; ignore := Some ignored |} in
  In e (listTables filter) <->
  exists row s,
    In row (runSelect (scopeToSchema filter (knex "ALL_TABLES"))) /\
    objGet row "TABLE_NAME" = JString s /\ In s names /\ ~ In s ignored /\
    e = {| entitySchema := objGet row "OWNER"; entityName := JString s;
           entityType := "table" |}.
Proof.
  cbv zeta. unfold listTables. rewrite in_map_iff. split.
  - intros (row & <- & Hrow).
    apply runSelect_addClause in Hrow as [Hrow Hig].
    apply runSelect_addClause in Hrow as [Hrow Hon].
    apply holds_WhereIn in Hon as (s & Hs & Hin).
    apply holds_WhereNotIn in Hig as (s' & Hs' & Hnot).
    rewrite Hs in Hs'. injection Hs' as <-.
    exists row, s. rewrite Hs. auto.
  - intros (row & s & Hrow & Hs & Hin & Hnot & ->).
    exists row. rewrite Hs. split; [reflexivity|].
    apply runSelect_addClause. split.
    + apply runSelect_addClause. split; [exact Hrow|].
      apply holds_WhereIn. now exists s.
    + apply holds_WhereNotIn. now exists s.
Qed.

(** With both lists given, [listViews] returns the views in scope whose name
    is in the only-list and in the ignore-list as well. *)
Lemma listViews_only_ignore (sch : option string) (names ignored : list string)
    (e : TableOrView) :
  let filter := Some {| filterSchema := sch; only := Some names; ignore := Some ignored |} in
  In e (listViews filter) <->
  exists row s,
    In row (runSelect (scopeToSchema filter (knex "ALL_VIEWS"))) /\
    objGet row "VIEW_NAME" = JString s /\ In s names /\ In s ignored /\
    e = {| entitySchema := objGet row "OWNER"; entityName := JString s;
           entityType := "view" |}.
Proof.
  cbv zeta. unfold listViews. rewrite in_map_iff. split.
  - intros (row & <- & Hrow).
    apply runSelect_addClause in Hrow as [Hrow Hig].
    apply runSelect_addClause in Hrow as [Hrow Hon].
    apply holds_WhereIn in Hon as (s & Hs & Hin).
    apply holds_WhereIn in Hig as (s' & Hs' & Hin').
    rewrite Hs in Hs'. injection Hs' as <-.
    exists row, s. rewrite Hs. auto.
  - intros (row & s & Hrow & Hs & Hin & Hin' & ->).
    exists row. rewrite Hs. split; [reflexivity|].
    apply runSelect_addClause. split.
    + apply runSelect_addClause. split; [exact Hrow|].
      apply holds_WhereIn. now exists s.
    + apply holds_WhereIn. now exists s.
Qed.


(** ** Cancelable queries *)

Lemma cancel_fields (s : QueryState) :
  phase (cancel s) = phase s /\ connection (cancel s) = connection s /\
  warnings (cancel s) = warnings s /\ canceling (cancel s) = true /\
  canceled (cancel s) = canceled s || negb (hasConnection s).
Proof.
  unfold cancel, hasConnection. destruct (connection s); simpl; repeat split;
    now rewrite ?orb_false_r, ?orb_true_r.
Qed.

(** The effect of [n] calls of [cancel()] in a row. *)
Lemma cancels_fields (n : nat) (s : QueryState) :
  let s' := fold_left step (repeat CallCancel n) s in
  phase s' = phase s /\ connection s' = connection s /\
  warnings s' = warnings s /\
  canceling s' = canceling s || (0 <? n)%nat /\
  canceled s' = canceled s || ((0 <? n)%nat && negb (hasConnection s)).
Proof.
  cbv zeta. revert s. induction n as [|n IH]; intros s; simpl.
  - now rewrite !orb_false_r.
  - destruct (IH (cancel s)) as (Hp & Hc & Hw & Hg & Hd).
    destruct (cancel_fields s) as (Hp' & Hc' & Hw' & Hg' & Hd').
    change (step s CallCancel) with (cancel s).
    assert (Hh : hasConnection (cancel s) = hasConnection s)
      by (unfold hasConnection; now rewrite Hc').
    rewrite Hp, Hc, Hw, Hg, Hd, Hh, Hp', Hc', Hw', Hg', Hd'.
    repeat split.
    + now rewrite orb_true_r.
    + destruct (canceled s), (hasConnection s), (0 <? n)%nat; reflexivity.
Qed.

Lemma outcome_tryBlock (s : QueryState) (r : Completion (list DriverResult)) :
  outcome (tryBlock s r) =
  Some match r with
       | Throw err =>
           if canceling s then Resolved Undefined else Rejected (rewriteMessage err)
       | Return data =>
           if canceled s then
             if canceling s then Resolved Undefined
             else Rejected (rewriteMessage CANCELED_BY_USER)
           else Resolved (Results (parseResults data))
       end.
Proof.
  unfold tryBlock, race, catchBlock.
  destruct r as [data|err]; [destruct (canceled s)|]; destruct (canceling s); reflexivity.
Qed.

(** Once [execute()] has settled, nothing changes its outcome. *)
Lemma settled_stable (events : list Event) (s : QueryState) (o : Outcome) :
  phase s = Settled o -> phase (fold_left step events s) = Settled o.
Proof.
  revert s; induction events as [|ev events IH]; intros s H; simpl; [exact H|].
  apply IH. destruct ev; unfold step; cbv beta iota.
  2: now rewrite (proj1 (cancel_fields s)).
  all: now rewrite H.
Qed.

Lemma step_warned_iff_canceled (s : QueryState) (ev : Event) :
  warned_iff_canceled s -> warned_iff_canceled (step s ev).
Proof.
  unfold warned_iff_canceled. intros H.
  destruct ev as [| |c|e|r]; unfold step; cbv beta iota.
  - destruct (phase s) eqn:E; simpl; rewrite ?E; exact H.
  - destruct (cancel_fields s) as (Hp & _ & Hw & _). now rewrite Hp, Hw.
  - destruct (phase s) eqn:E; simpl; rewrite ?E; exact H.
  - destruct (phase s) eqn:E; simpl; rewrite ?E; exact H.
  - destruct (phase s) eqn:E; simpl; rewrite ?E; try exact H.
    unfold tryBlock, race, catchBlock.
    destruct r as [data|err]; [destruct (canceled s)|]; destruct (canceling s);
      simpl; now rewrite H.
Qed.

Lemma run_warned_iff_canceled (events : list Event) : warned_iff_canceled (run events).
Proof.
  unfold run.
  assert (G : forall s, warned_iff_canceled s -> warned_iff_canceled (fold_left step events s)).
  { induction events as [|ev events IH]; intros s H; simpl; [exact H|].
    apply IH, step_warned_iff_canceled, H. }
  apply G. reflexivity.
Qed.


Lemma fold_left_step_cons (ev : Event) (events : list Event) (s : QueryState) :
  fold_left step (ev :: events) s = fold_left step events (step s ev).
Proof. reflexivity. Qed.

Lemma step_execute_fields (s : QueryState) :
  phase s = NotCalled ->
  let s' := step s CallExecute in
  phase s' = AwaitingConnection /\ connection s' = connection s /\
  canceling s' = canceling s /\ canceled s' = canceled s.
Proof. intros H. unfold step. cbv beta iota zeta. rewrite H. now simpl. Qed.

Lemma step_acquired_fields (s : QueryState) (c : nat) :
  phase s = AwaitingConnection ->
  let s' := step s (ConnectionAcquired c) in
  phase s' = AwaitingDriver /\ connection s' = Some c /\
  canceling s' = canceling s /\ canceled s' = canceled s.
Proof. intros H. unfold step. cbv beta iota zeta. rewrite H. now simpl. Qed.

(** The outcome of a complete run of [execute()], with [cancel()] called
    [n0] times before [execute()], [n1] times while the connection is
    awaited, [n2] times while the driver call is in flight and [n3] times
    after it has completed with [r]. *)
Lemma outcome_of_run (n0 n1 n2 n3 c : nat) (r : Completion (list DriverResult)) :
  outcome (run (repeat CallCancel n0 ++ CallExecute :: repeat CallCancel n1
                ++ ConnectionAcquired c :: repeat CallCancel n2
                ++ DriverSettled r :: repeat CallCancel n3)%list) =
  Some match r with
       | Throw err =>
           if (0 <? n0 + n1 + n2)%nat then Resolved Undefined
           else Rejected (rewriteMessage err)
       | Return data =>
           if (0 <? n0 + n1)%nat then Resolved Undefined
           else Resolved (Results (parseResults data))
       end.
Proof.
  unfold run.
  rewrite fold_left_app, fold_left_step_cons.
  destruct (cancels_fields n0 query) as (Hp0 & Hc0 & _ & Hg0 & Hd0).
  set (s0 := fold_left step (repeat CallCancel n0) query) in *.
  destruct (step_execute_fields s0 Hp0) as (Hp1 & Hc1 & Hg1 & Hd1).
  set (s1 := step s0 CallExecute) in *.
  rewrite fold_left_app, fold_left_step_cons.
  destruct (cancels_fields n1 s1) as (Hp2 & Hc2 & _ & Hg2 & Hd2).
  set (s2 := fold_left step (repeat CallCancel n1) s1) in *.
  rewrite Hp1 in Hp2.
  destruct (step_acquired_fields s2 c Hp2) as (Hp3 & Hc3 & Hg3 & Hd3).
  set (s3 := step s2 (ConnectionAcquired c)) in *.
  rewrite fold_left_app, fold_left_step_cons.
  destruct (cancels_fields n2 s3) as (Hp4 & Hc4 & _ & Hg4 & Hd4).
  set (s4 := fold_left step (repeat CallCancel n2) s3) in *.
  assert (Hstep : step s4 (DriverSettled r) = tryBlock s4 r).
  { unfold step. cbv beta iota. now rewrite Hp4, Hp3. }
  rewrite Hstep.
  pose proof (outcome_tryBlock s4 r) as Ho.
  assert (Hcanceling : canceling s4 = (0 <? n0 + n1 + n2)%nat).
  { rewrite Hg4, Hg3, Hg2, Hg1, Hg0. simpl.
    destruct n0, n1, n2; reflexivity. }
  assert (Hcanceled : canceled s4 = (0 <? n0 + n1)%nat).
  { rewrite Hd4, Hd3, Hd2, Hd1, Hd0.
    unfold hasConnection. rewrite Hc3, Hc1, Hc0. simpl.
    destruct n0, n1, n2; reflexivity. }
  rewrite Hcanceling, Hcanceled in Ho.
  unfold outcome in Ho.
  destruct (phase (tryBlock s4 r)) as [| | |o] eqn:Ep; try discriminate.
  unfold outcome. rewrite (settled_stable _ _ o Ep). rewrite Ho.
  destruct r as [data|err]; [|reflexivity].
  destruct n0, n1, n2; reflexivity.
Qed.


(** C9. When the driver call fails and [cancel()] has not been called, the
    error is thrown again by [execute()], not swallowed.  If its message
    contains "table or view does not exist", the message gets the hint about
    quoting the table name appended, and the name and the error number stay
    as they were; any other error is thrown again unchanged. *)
Theorem execute_rethrows (s : QueryState) (err : JsError) :
  phase s = AwaitingDriver ->
  canceling s = false ->
  outcome (step s (DriverSettled (Throw err))) = Some (Rejected (rewriteMessage err)) /\
  (forall m, message err = Some m ->
     Js.includes m "table or view does not exist" = true ->
     rewriteMessage err =
       {| errName := errName err;
          message := Some (m ++ " - have you tried " ++ dquote ++ "quoting" ++ dquote
                             ++ " the table name?");
          errorNum := errorNum err |}) /\
  (forall m, message err = Some m ->
     Js.includes m "table or view does not exist" = false ->
     rewriteMessage err = err) /\
  (message err = None -> rewriteMessage err = err).
Proof.
  intros Hp Hc. split; [|split; [|split]].
  - unfold step. cbv beta iota. rewrite Hp.
    rewrite outcome_tryBlock. now rewrite Hc.
  - intros m Hm Hi. unfold rewriteMessage. now rewrite Hm, Hi.
  - intros m Hm Hi. unfold rewriteMessage. now rewrite Hm, Hi.
  - intros Hm. unfold rewriteMessage. now rewrite Hm.
Qed.


(** ** Running a script *)

Lemma executeInfos_app (pre rest : list IdentifyResult) (acc : list DriverResult)
    (db : Engine) :
  executeInfos (pre ++ rest)%list acc db =
  match executeInfos pre acc db with
  | (db1, Return rs) => executeInfos rest rs db1
  | (db1, Throw e) => (db1, Throw e)
  end.
Proof.
  revert acc db; induction pre as [|q pre IH]; intros acc db; simpl; [reflexivity|].
  destruct (execute db (maybeStripSemicolon (text q) q)) as [db1 [data|e]];
    [apply IH | reflexivity].
Qed.

(** What the loop adds to the results it starts from: one result per
    statement, each holding the engine's answer to the text that was sent
    for it. *)
Lemma executeInfos_results (infos : list IdentifyResult) (acc rs : list DriverResult)
    (db db' : Engine) :
  executeInfos infos acc db = (db', Return rs) ->
  exists new,
    rs = (acc ++ new)%list /\ map info new = infos /\
    Forall (fun r => exists d d',
              execute d (maybeStripSemicolon (text (info r)) (info r))
              = (d', Return (result r))) new.
Proof.
  revert acc db; induction infos as [|q infos IH]; intros acc db H; simpl in H.
  - injection H as _ <-. exists []. rewrite app_nil_r. repeat split. constructor.
  - destruct (execute db (maybeStripSemicolon (text q) q)) as [db1 [data|e]] eqn:E;
      [|discriminate].
    apply IH in H as (new & -> & Hinfo & Hall).
    exists ({| result := data; info := q |} :: new). split; [|split].
    + now rewrite <- app_assoc.
    + simpl. now rewrite Hinfo.
    + constructor; [|exact Hall]. simpl. now exists db, db1.
Qed.

(** When [rawExecuteQuery] returns, a session was acquired, the loop ran to
    its end on it, the commit succeeded and the session was closed. *)
Lemma rawExecuteQuery_Return_inv (realQueries : list string) (db db' : Engine)
    (results : list DriverResult) :
  rawExecuteQuery realQueries db = (db', Return results) ->
  exists db0 u db1 db2 u',
    getConnection db = (db0, Return u) /\
    executeInfos (flat_map identify realQueries) [] db0 = (db1, Return results) /\
    commit db1 = (db2, Return u') /\
    db' = close db2.
Proof.
  unfold rawExecuteQuery, withClosable. intros H.
  destruct (getConnection db) as [db0 [u|e]]; [|discriminate].
  destruct (executeInfos (flat_map identify realQueries) [] db0) as [db1 [rs|e]] eqn:E;
    [|discriminate].
  destruct (commit db1) as [db2 [u'|e]] eqn:C; [|discriminate].
  injection H as <- <-. exists db0, u, db1, db2, u'. repeat split; assumption.
Qed.

(** X1. When [rawExecuteQuery] returns, its results are aligned with the
    classified statements of the queries, one result per statement in
    submission order, and the result of a statement holds the engine's
    answer to the text of that statement as [maybeStripSemicolon] sent it. *)
Theorem rawExecuteQuery_results (realQueries : list string) (db db' : Engine)
    (results : list DriverResult) :
  rawExecuteQuery realQueries db = (db', Return results) ->
  map info results = flat_map identify realQueries /\
  List.length results = List.length (flat_map identify realQueries) /\
  Forall (fun r => exists d d',
            execute d (maybeStripSemicolon (text (info r)) (info r))
            = (d', Return (result r))) results.
Proof.
  intros H.
  apply rawExecuteQuery_Return_inv in H as (db0 & u & db1 & db2 & u' & _ & E & _ & _).
  apply executeInfos_results in E as (new & -> & Hinfo & Hall). simpl.
  split; [exact Hinfo|]. split; [|exact Hall].
  now rewrite <- Hinfo, length_map.
Qed.

(** X2. The exit paths of [rawExecuteQuery].  When the pool hands out no
    session, its error is thrown and nothing is sent.  On a session,
    [rawExecuteQuery] stops at the first statement that the engine rejects:
    the error of that statement is thrown, the statements after it are never
    sent and nothing is committed.  When the commit fails, its error is
    thrown.  On each of these paths, and when the results are returned, the
    session that was acquired is closed, after the last thing that was done
    on it. *)
Theorem rawExecuteQuery_fails_fast (realQueries : list string) (db : Engine) :
  (forall db0 e,
     getConnection db = (db0, Throw e) ->
     rawExecuteQuery realQueries db = (db0, Throw e)) /\
  (forall db0 u pre q post db1 done db2 e,
     getConnection db = (db0, Return u) ->
     flat_map identify realQueries = (pre ++ q :: post)%list ->
     executeInfos pre [] db0 = (db1, Return done) ->
     execute db1 (maybeStripSemicolon (text q) q) = (db2, Throw e) ->
     rawExecuteQuery realQueries db = (close db2, Throw e)) /\
  (forall db0 u db1 results db2 e,
     getConnection db = (db0, Return u) ->
     executeInfos (flat_map identify realQueries) [] db0 = (db1, Return results) ->
     commit db1 = (db2, Throw e) ->
     rawExecuteQuery realQueries db = (close db2, Throw e)) /\
  (forall db0 u db1 results db2 u',
     getConnection db = (db0, Return u) ->
     executeInfos (flat_map identify realQueries) [] db0 = (db1, Return results) ->
     commit db1 = (db2, Return u') ->
     rawExecuteQuery realQueries db = (close db2, Return results)).
Proof.
  unfold rawExecuteQuery, withClosable.
  split; [|split; [|split]].
  - intros db0 e ->. reflexivity.
  - intros db0 u pre q post db1 done db2 e -> Hsplit Hpre Hq.
    rewrite Hsplit, executeInfos_app, Hpre. simpl. now rewrite Hq.
  - intros db0 u db1 results db2 e -> -> ->. reflexivity.
  - intros db0 u db1 results db2 u' -> -> ->. reflexivity.
Qed.

(** X3. [executeQuery] returns one normalised result per classified
    statement of the script, in order; the [command] of each is the text of
    its statement as classified, before any semicolon is stripped, and its
    [rowCount] is the number of rows the engine returned. *)
Theorem executeQuery_commands (script : string) (db db' : Engine)
    (results : list NgQueryResult) :
  executeQuery script db = (db', Return results) ->
  map command results = map text (identify script) /\
  exists raw, driverExecuteMultiple script db = (db', Return raw) /\
              results = parseResults raw /\
              Forall2 (fun r n => rowCount n = match rows (result r) with
                                               | Some rs => List.length rs
                                               | None => 0
                                               end) raw results.
Proof.
  unfold executeQuery. intros H.
  destruct (driverExecuteMultiple script db) as [db1 [raw|e]] eqn:E; [|discriminate].
  injection H as <- <-.
  assert (Hinfo : map info raw = identify script).
  { unfold driverExecuteMultiple in E.
    apply rawExecuteQuery_Return_inv in E as (db0 & u & db2 & db3 & u' & _ & E' & _ & _).
    apply executeInfos_results in E' as (new & -> & Hinfo & _).
    simpl in *. now rewrite app_nil_r in Hinfo. }
  split.
  - unfold parseResults. rewrite map_map. simpl.
    rewrite <- Hinfo, map_map. reflexivity.
  - exists raw. repeat split.
    unfold parseResults. clear. induction raw as [|r raw IH]; simpl; constructor; auto.
Qed.


(** ** Rows as records of named cells *)

Lemma objGetOwn_None (obj : JsObject) (key : string) :
  objGetOwn obj key = None <-> ~ In key (Object_keys obj).
Proof.
  unfold Object_keys. induction obj as [|[k v] obj IH]; simpl.
  - split; [intros _ [] | reflexivity].
  - destruct (k =? key)%string eqn:E.
    + apply String.eqb_eq in E. split; [discriminate | intros H; elim H; now left].
    + apply String.eqb_neq in E. rewrite IH. split.
      * intros H [H'|H']; [now apply E | now apply H].
      * intros H H'. apply H. now right.
Qed.

Lemma objGetOwn_objReplace (obj : JsObject) (key key' : string) (value : JsValue) :
  In key (Object_keys obj) ->
  objGetOwn (objReplace obj key value) key' =
  if (key =? key')%string then Some value else objGetOwn obj key'.
Proof.
  unfold Object_keys. induction obj as [|[k v] obj IH]; simpl; intros H; [contradiction|].
  destruct (k =? key)%string eqn:E; simpl.
  - apply String.eqb_eq in E. subst k. now destruct (key =? key')%string.
  - apply String.eqb_neq in E. destruct H as [H|H]; [contradiction|].
    rewrite (IH H). destruct (k =? key')%string eqn:E'; [|reflexivity].
    apply String.eqb_eq in E'. subst k.
    destruct (key =? key')%string eqn:E''; [|reflexivity].
    apply String.eqb_eq in E''. congruence.
Qed.

Lemma objGetOwn_objInsertIndex (obj : JsObject) (index : N) (key key' : string)
    (value : JsValue) :
  ~ In key (Object_keys obj) ->
  objGetOwn (objInsertIndex obj index key value) key' =
  if (key =? key')%string then Some value else objGetOwn obj key'.
Proof.
  unfold Object_keys. induction obj as [|[k v] obj IH]; simpl; intros H; [reflexivity|].
  assert (Hk : k <> key) by (intros ->; apply H; now left).
  assert (Hrest : ~ In key (map fst obj)) by (intros H'; apply H; now right).
  destruct (arrayIndex k) as [i|]; [destruct (i <? index)%N|]; simpl; try reflexivity.
  rewrite (IH Hrest). destruct (k =? key')%string eqn:E'; [|reflexivity].
  apply String.eqb_eq in E'. subst k.
  destruct (key =? key')%string eqn:E''; [|reflexivity].
  apply String.eqb_eq in E''. congruence.
Qed.

Lemma objGetOwn_app (obj : JsObject) (key key' : string) (value : JsValue) :
  ~ In key (Object_keys obj) ->
  objGetOwn (obj ++ [(key, value)])%list key' =
  if (key =? key')%string then Some value else objGetOwn obj key'.
Proof.
  unfold Object_keys. induction obj as [|[k v] obj IH]; simpl; intros H; [reflexivity|].
  assert (Hk : k <> key) by (intros ->; apply H; now left).
  assert (Hrest : ~ In key (map fst obj)) by (intros H'; apply H; now right).
  rewrite (IH Hrest). destruct (k =? key')%string eqn:E'; [|reflexivity].
  apply String.eqb_eq in E'. subst k.
  destruct (key =? key')%string eqn:E''; [|reflexivity].
  apply String.eqb_eq in E''. congruence.
Qed.

(** Reading after defining: the defined name reads the new value, every
    other name reads what it read before. *)
Lemma objGetOwn_objDefine (obj : JsObject) (key key' : string) (value : JsValue) :
  objGetOwn (objDefine obj key value) key' =
  if (key =? key')%string then Some value else objGetOwn obj key'.
Proof.
  unfold objDefine. destruct (hasOwnProperty obj key) eqn:E.
  - apply objGetOwn_objReplace. now apply hasOwnProperty_In.
  - assert (H : ~ In key (Object_keys obj)).
    { intros H. apply hasOwnProperty_In in H. congruence. }
    destruct (arrayIndex key); [now apply objGetOwn_objInsertIndex | now apply objGetOwn_app].
Qed.

Lemma objSet_objDefine (obj : JsObject) (key : string) (value : JsValue) :
  key <> "__proto__" -> objSet obj key value = objDefine obj key value.
Proof.
  intros H. unfold objSet. apply String.eqb_neq in H. now rewrite H.
Qed.

Lemma objReplace_keys (obj : JsObject) (key : string) (value : JsValue) :
  Object_keys (objReplace obj key value) = Object_keys obj.
Proof.
  unfold Object_keys. induction obj as [|[k v] obj IH]; simpl; [reflexivity|].
  destruct (k =? key)%string; simpl; [reflexivity | now rewrite IH].
Qed.

Lemma objInsertIndex_Permutation (obj : JsObject) (index : N) (key : string)
    (value : JsValue) :
  Permutation (Object_keys (objInsertIndex obj index key value)) (key :: Object_keys obj).
Proof.
  unfold Object_keys. induction obj as [|[k v] obj IH]; simpl; [apply Permutation_refl|].
  destruct (arrayIndex k) as [i|]; [destruct (i <? index)%N|]; simpl;
    try apply Permutation_refl.
  eapply perm_trans; [apply perm_skip, IH | apply perm_swap].
Qed.

Lemma objDefine_NoDup (obj : JsObject) (key : string) (value : JsValue) :
  NoDup (Object_keys obj) -> NoDup (Object_keys (objDefine obj key value)).
Proof.
  intros H. unfold objDefine. destruct (hasOwnProperty obj key) eqn:E.
  - now rewrite objReplace_keys.
  - assert (Hfresh : ~ In key (Object_keys obj)).
    { intros Hin. apply hasOwnProperty_In in Hin. congruence. }
    assert (Hcons : NoDup (key :: Object_keys obj)) by now constructor.
    destruct (arrayIndex key) as [index|].
    + eapply Permutation_NoDup; [|exact Hcons].
      apply Permutation_sym, objInsertIndex_Permutation.
    + eapply Permutation_NoDup; [|exact Hcons].
      unfold Object_keys. rewrite map_app. simpl. apply Permutation_cons_append.
Qed.

Lemma objSet_NoDup (obj : JsObject) (key : string) (value : JsValue) :
  NoDup (Object_keys obj) -> NoDup (Object_keys (objSet obj key value)).
Proof.
  intros H. unfold objSet.
  destruct ((key =? "__proto__")%string && negb (hasOwnProperty obj key));
    [exact H | now apply objDefine_NoDup].
Qed.

(** An object is its keys, each with the value that it reads. *)
Lemma object_by_keys (obj : JsObject) :
  NoDup (Object_keys obj) ->
  obj = map (fun key => (key, match objGetOwn obj key with
                              | Some v => v
                              | None => JUndefined
                              end)) (Object_keys obj).
Proof.
  unfold Object_keys. induction obj as [|[k v] obj IH]; simpl; intros H; [reflexivity|].
  inversion H as [|? ? Hk Hrest]; subst.
  rewrite String.eqb_refl. f_equal.
  rewrite (IH Hrest) at 1. apply map_ext_in. intros key Hin.
  destruct (k =? key)%string eqn:E; [|reflexivity].
  apply String.eqb_eq in E. subst. contradiction.
Qed.

(** *** The order of the keys *)

Lemma indexLeb_total (a b : string) : indexLeb a b = false -> indexLeb b a = true.
Proof.
  unfold indexLeb. destruct (arrayIndex a) as [i|], (arrayIndex b) as [j|];
    try discriminate; try reflexivity.
  rewrite N.leb_gt, N.leb_le. lia.
Qed.

Lemma sortIndices_snoc (indices : list string) (key : string) :
  sortIndices (indices ++ [key]) = insertOrdered indexLeb key (sortIndices indices).
Proof. unfold sortIndices. now rewrite fold_left_app. Qed.

Lemma sortIndices_Permutation (indices : list string) :
  Permutation (sortIndices indices) indices.
Proof.
  induction indices as [|key indices IH] using rev_ind; [apply Permutation_refl|].
  rewrite sortIndices_snoc.
  eapply perm_trans; [apply insertOrdered_Permutation|].
  eapply perm_trans; [apply perm_skip, IH | apply Permutation_cons_append].
Qed.

Lemma sortIndices_Sorted (indices : list string) :
  Sorted (fun a b => indexLeb a b = true) (sortIndices indices).
Proof.
  induction indices as [|key indices IH] using rev_ind; [constructor|].
  rewrite sortIndices_snoc. apply insertOrdered_Sorted; [exact indexLeb_total | exact IH].
Qed.

Lemma ownKeyOrder_Permutation (created : list string) :
  Permutation (ownKeyOrder created) created.
Proof.
  unfold ownKeyOrder.
  eapply perm_trans; [apply Permutation_app_tail, sortIndices_Permutation|].
  induction created as [|key created IH]; simpl; [apply Permutation_refl|].
  destruct (isArrayIndex key); simpl.
  - now apply perm_skip.
  - eapply perm_trans; [apply Permutation_sym, Permutation_middle | now apply perm_skip].
Qed.

Lemma ownKeyOrder_plain (created : list string) :
  Forall (fun name => arrayIndex name = None) created -> ownKeyOrder created = created.
Proof.
  intros H. unfold ownKeyOrder.
  assert (E : filter isArrayIndex created = []
              /\ filter (fun key => negb (isArrayIndex key)) created = created).
  { induction H as [|key created Hkey _ [IH1 IH2]]; [now split|].
    assert (Hk : isArrayIndex key = false) by (unfold isArrayIndex; now rewrite Hkey).
    simpl. rewrite Hk. simpl. now rewrite IH2. }
  destruct E as [-> ->]. reflexivity.
Qed.

Lemma objInsertIndex_keys (obj : JsObject) (index : N) (key : string) (value : JsValue)
    (indices others : list string) :
  arrayIndex key = Some index ->
  Object_keys obj = (indices ++ others)%list ->
  Forall (fun k => isArrayIndex k = true) indices ->
  Forall (fun k => isArrayIndex k = false) others ->
  Object_keys (objInsertIndex obj index key value)
  = (insertOrdered indexLeb key indices ++ others)%list.
Proof.
  intros Hkey. unfold Object_keys.
  revert obj; induction indices as [|y indices IH]; intros obj Hobj Hidx Hoth.
  - simpl in *. destruct obj as [|[k v] obj]; simpl in *.
    + now subst.
    + destruct others as [|o others]; [discriminate|].
      injection Hobj as Hk Hobj. subst o. inversion Hoth as [|? ? Ho _]; subst.
      unfold isArrayIndex in Ho. destruct (arrayIndex k); [discriminate|].
      reflexivity.
  - destruct obj as [|[k v] obj]; [discriminate|].
    simpl in Hobj. injection Hobj as Hk Hobj. subst y.
    inversion Hidx as [|? ? Hy Hrest]; subst.
    unfold isArrayIndex in Hy. simpl. unfold indexLeb. rewrite Hkey.
    destruct (arrayIndex k) as [i|]; [|discriminate].
    rewrite N.ltb_antisym. destruct (index <=? i)%N; simpl.
    + now rewrite Hobj.
    + f_equal. now apply IH.
Qed.

Lemma filter_snoc {A : Type} (f : A -> bool) (l : list A) (x : A) :
  filter f (l ++ [x])%list = if f x then (filter f l ++ [x])%list else filter f l.
Proof.
  rewrite filter_app. simpl. destruct (f x); [reflexivity | apply app_nil_r].
Qed.

(** Defining a name that is not there yet keeps the keys in the order of
    [Object.keys]. *)
Lemma objDefine_ownKeyOrder (obj : JsObject) (created : list string) (key : string)
    (value : JsValue) :
  Object_keys obj = ownKeyOrder created ->
  ~ In key created ->
  Object_keys (objDefine obj key value) = ownKeyOrder (created ++ [key])%list.
Proof.
  intros Hkeys Hfresh.
  assert (Hown : hasOwnProperty obj key = false).
  { apply hasOwnProperty_fresh. rewrite Hkeys. intros Hin. apply Hfresh.
    now apply (Permutation_in _ (ownKeyOrder_Permutation created)). }
  unfold objDefine. rewrite Hown. unfold ownKeyOrder. rewrite !filter_snoc.
  destruct (arrayIndex key) as [index|] eqn:E.
  - assert (Hk : isArrayIndex key = true) by (unfold isArrayIndex; now rewrite E).
    rewrite Hk. simpl. rewrite sortIndices_snoc.
    apply objInsertIndex_keys; [exact E | exact Hkeys | |].
    + apply Forall_forall. intros k Hin.
      apply (Permutation_in _ (sortIndices_Permutation _)) in Hin.
      now apply filter_In in Hin.
    + apply Forall_forall. intros k Hin. apply filter_In in Hin as [_ Hin].
      now apply negb_true_iff.
  - assert (Hk : isArrayIndex key = false) by (unfold isArrayIndex; now rewrite E).
    rewrite Hk. simpl.
    unfold Object_keys in *. rewrite map_app, Hkeys. simpl.
    unfold ownKeyOrder. now rewrite <- app_assoc.
Qed.

Lemma skipn_nth_error {A : Type} (l : list A) (n : nat) (x : A) :
  nth_error l n = Some x -> skipn n l = x :: skipn (S n) l.
Proof.
  revert n; induction l as [|y l IH]; intros [|n] H; simpl in *; try discriminate.
  - now injection H as ->.
  - now apply IH.
Qed.

Lemma fillRow_fits (md : list Metadata) (nuRow : JsObject) (idx : nat) (r : list JsValue) :
  idx + List.length r <= List.length md ->
  exists obj, fillRow md nuRow idx r = Return obj.
Proof.
  revert nuRow idx; induction r as [|item r IH]; intros nuRow idx H; simpl in *.
  - now exists nuRow.
  - destruct (nth_error md idx) as [meta|] eqn:E.
    + apply IH. lia.
    + apply nth_error_None in E. lia.
Qed.

Lemma fillRow_overflows (md : list Metadata) (nuRow : JsObject) (idx : nat)
    (r : list JsValue) :
  idx <= List.length md ->
  List.length md < idx + List.length r ->
  fillRow md nuRow idx r = Throw TypeError.
Proof.
  revert nuRow idx; induction r as [|item r IH]; intros nuRow idx Hi H; simpl in *.
  - lia.
  - destruct (nth_error md idx) as [meta|] eqn:E; [|reflexivity].
    assert (idx < List.length md) by (apply nth_error_Some; congruence).
    apply IH; lia.
Qed.

Lemma fillRow_NoDup (md : list Metadata) (nuRow obj : JsObject) (idx : nat)
    (r : list JsValue) :
  fillRow md nuRow idx r = Return obj ->
  NoDup (Object_keys nuRow) -> NoDup (Object_keys obj).
Proof.
  revert nuRow idx; induction r as [|item r IH]; intros nuRow idx H Hnd; simpl in H.
  - now injection H as <-.
  - destruct (nth_error md idx) as [meta|]; [|discriminate].
    eapply IH; [exact H | now apply objSet_NoDup].
Qed.

Lemma lastNamed_cons (n : string) (ns : list string) (c : JsValue) (cs : list JsValue)
    (key : string) :
  lastNamed (n :: ns) (c :: cs) key =
  match lastNamed ns cs key with
  | Some v => Some v
  | None => if (n =? key)%string then Some c else None
  end.
Proof. reflexivity. Qed.

Lemma fillRow_objGetOwn (md : list Metadata) (nuRow obj : JsObject) (idx : nat)
    (r : list JsValue) (key : string) :
  ~ In "__proto__" (skipn idx (map metaName md)) ->
  fillRow md nuRow idx r = Return obj ->
  objGetOwn obj key =
  match lastNamed (skipn idx (map metaName md)) r key with
  | Some v => Some v
  | None => objGetOwn nuRow key
  end.
Proof.
  revert nuRow idx; induction r as [|item r IH]; intros nuRow idx Hproto H; simpl in H.
  - injection H as <-. now destruct (skipn idx (map metaName md)).
  - destruct (nth_error md idx) as [meta|] eqn:E; [|discriminate].
    rewrite (skipn_nth_error (map metaName md) idx (metaName meta)) in *
      by (rewrite nth_error_map, E; reflexivity).
    assert (Hname : metaName meta <> "__proto__").
    { intros Heq. apply Hproto. now left. }
    assert (Hrest : ~ In "__proto__" (skipn (S idx) (map metaName md))).
    { intros Hin. apply Hproto. now right. }
    rewrite lastNamed_cons, (IH _ _ Hrest H).
    destruct (lastNamed (skipn (S idx) (map metaName md)) r key); [reflexivity|].
    rewrite objSet_objDefine by exact Hname.
    rewrite objGetOwn_objDefine. now destruct (metaName meta =? key)%string.
Qed.

Lemma fillRow_distinct (md : list Metadata) (nuRow : JsObject) (idx : nat)
    (r : list JsValue) :
  idx + List.length r <= List.length md ->
  NoDup (Object_keys nuRow ++ skipn idx (map metaName md))%list ->
  Forall (fun name => arrayIndex name = None) (skipn idx (map metaName md)) ->
  ~ In "__proto__" (skipn idx (map metaName md)) ->
  fillRow md nuRow idx r
  = Return (nuRow ++ combine (skipn idx (map metaName md)) r)%list.
Proof.
  revert nuRow idx; induction r as [|item r IH]; intros nuRow idx Hlen Hnd Hplain Hproto;
    simpl in *.
  - destruct (skipn idx (map metaName md)); now rewrite app_nil_r.
  - destruct (nth_error md idx) as [meta|] eqn:E.
    2:{ apply nth_error_None in E. lia. }
    rewrite (skipn_nth_error (map metaName md) idx (metaName meta)) in *
      by (rewrite nth_error_map, E; reflexivity).
    inversion Hplain as [|? ? Hname Hrest]; subst.
    rewrite objSet_objDefine by (intros Heq; apply Hproto; now left).
    rewrite objDefine_fresh; [| |exact Hname].
    + rewrite IH.
      * simpl. now rewrite <- app_assoc.
      * lia.
      * unfold Object_keys in *. rewrite map_app. simpl. now rewrite <- app_assoc.
      * exact Hrest.
      * intros Hin. apply Hproto. now right.
    + apply NoDup_remove_2 in Hnd. intros Hin. apply Hnd, in_or_app. now left.
Qed.

Lemma firstn_S_nth_error {A : Type} (l : list A) (n : nat) (x : A) :
  nth_error l n = Some x -> firstn (S n) l = (firstn n l ++ [x])%list.
Proof.
  revert n; induction l as [|y l IH]; intros [|n] H; simpl in *; try discriminate.
  - now injection H as ->.
  - f_equal. now apply IH.
Qed.

Lemma NoDup_firstn_nth_error {A : Type} (l : list A) (n : nat) (x : A) :
  NoDup l -> nth_error l n = Some x -> ~ In x (firstn n l).
Proof.
  intros Hnd H. rewrite <- (firstn_skipn n l), (skipn_nth_error l n x H) in Hnd.
  apply NoDup_remove_2 in Hnd. intros Hin. apply Hnd, in_or_app. now left.
Qed.

(** The keys of the object that [fillRow] builds under distinct column
    names, in the order of [Object.keys]. *)
Lemma fillRow_keys (md : list Metadata) (nuRow obj : JsObject) (idx : nat)
    (r : list JsValue) :
  NoDup (map metaName md) ->
  ~ In "__proto__" (map metaName md) ->
  Object_keys nuRow = ownKeyOrder (firstn idx (map metaName md)) ->
  fillRow md nuRow idx r = Return obj ->
  Object_keys obj = ownKeyOrder (firstn (idx + List.length r) (map metaName md)).
Proof.
  intros Hnd Hproto.
  revert nuRow idx; induction r as [|item r IH]; intros nuRow idx Hkeys H; simpl in H.
  - injection H as <-. simpl. now rewrite Nat.add_0_r.
  - destruct (nth_error md idx) as [meta|] eqn:E; [|discriminate].
    assert (Hn : nth_error (map metaName md) idx = Some (metaName meta))
      by (rewrite nth_error_map, E; reflexivity).
    simpl. rewrite Nat.add_succ_r.
    refine (IH (objSet nuRow (metaName meta) item) (S idx) _ H).
    rewrite (firstn_S_nth_error _ _ _ Hn).
    rewrite objSet_objDefine.
    + apply objDefine_ownKeyOrder; [exact Hkeys | now apply NoDup_firstn_nth_error].
    + intros Heq. apply Hproto. rewrite <- Heq. eapply nth_error_In. exact Hn.
Qed.

(** Under distinct column names, [fillRow] builds the object of the row. *)
Lemma fillRow_rowObject (md : list Metadata) (r : list JsValue) :
  NoDup (map metaName md) ->
  ~ In "__proto__" (map metaName md) ->
  List.length r <= List.length md ->
  fillRow md [] 0 r = Return (rowObject (map metaName md) r).
Proof.
  intros Hnd Hproto Hlen.
  destruct (fillRow_fits md [] 0 r Hlen) as [obj Hobj].
  rewrite Hobj. f_equal.
  pose proof (fillRow_keys md [] obj 0 r Hnd Hproto eq_refl Hobj) as Hkeys.
  assert (Hnodup : NoDup (Object_keys obj)).
  { eapply fillRow_NoDup; [exact Hobj | constructor]. }
  rewrite (object_by_keys obj Hnodup), Hkeys. unfold rowObject. simpl.
  apply map_ext. intros key.
  rewrite (fillRow_objGetOwn md [] obj 0 r key Hproto Hobj). simpl.
  now destruct (lastNamed (map metaName md) r key).
Qed.

(** Without array indices among the column names, the object of a row pairs
    the names with the cells in the order of the columns. *)
Lemma rowObject_plain (md : list Metadata) (r : list JsValue) :
  NoDup (map metaName md) ->
  ~ In "__proto__" (map metaName md) ->
  Forall (fun name => arrayIndex name = None) (map metaName md) ->
  List.length r <= List.length md ->
  rowObject (map metaName md) r = combine (map metaName md) r.
Proof.
  intros Hnd Hproto Hplain Hlen.
  pose proof (fillRow_rowObject md r Hnd Hproto Hlen) as H1.
  pose proof (fillRow_distinct md [] 0 r Hlen Hnd Hplain Hproto) as H2.
  simpl in H2. rewrite H1 in H2. now injection H2.
Qed.

(** The keys of the object of a row: the array indices among the named
    cells come first, in ascending order, then the other names in the order
    of the columns. *)
Lemma ownKeyOrder_indices_first (created : list string) :
  exists indices,
    ownKeyOrder created
      = (indices ++ filter (fun key => negb (isArrayIndex key)) created)%list /\
    Permutation indices (filter isArrayIndex created) /\
    Sorted (fun a b => indexLeb a b = true) indices.
Proof.
  exists (sortIndices (filter isArrayIndex created)). split; [reflexivity|].
  split; [apply sortIndices_Permutation | apply sortIndices_Sorted].
Qed.

Lemma mapM_ext {A B : Type} (f g : A -> Completion B) (l : list A) :
  (forall x, f x = g x) -> mapM f l = mapM g l.
Proof.
  intros H. induction l as [|x l IH]; simpl; [reflexivity | now rewrite H, IH].
Qed.

(** The callback that [driverExecuteSimple] maps over the rows. *)
Lemma driverExecuteSimple_unfold (q : string) (db db' : Engine) (dr : DriverResult) :
  driverExecuteSingle q db = (db', Return dr) ->
  driverExecuteSimple q db =
  (db', match rows (result dr) with
        | None => Throw TypeError
        | Some rs => mapM (fillRow (metaDataOrNone (result dr)) [] 0) rs
        end).
Proof.
  intros H. unfold driverExecuteSimple, metaDataOrNone. rewrite H. cbv beta iota.
  destruct (rows (result dr)) as [rs|]; [|reflexivity].
  apply (f_equal (pair db')). apply mapM_ext. intros r.
  destruct r as [|item r]; [reflexivity|].
  destruct (metaData (result dr)); reflexivity.
Qed.


Lemma mapM_map {A B : Type} (f : A -> Completion B) (g : A -> B) (l : list A) :
  Forall (fun x => f x = Return (g x)) l -> mapM f l = Return (map g l).
Proof.
  induction 1 as [|x l Hx _ IH]; simpl; [reflexivity | now rewrite Hx, IH].
Qed.

Lemma mapM_throws {A B : Type} (f : A -> Completion B) (err : JsError) (l : list A) :
  (forall x e, f x = Throw e -> e = err) ->
  Exists (fun x => exists e, f x = Throw e) l ->
  mapM f l = Throw err.
Proof.
  intros Hall. induction 1 as [x l [e Hx]|x l _ IH]; simpl.
  - rewrite Hx. simpl. now rewrite (Hall x e Hx).
  - destruct (f x) as [y|e] eqn:E; simpl.
    + now rewrite IH.
    + now rewrite (Hall x e E).
Qed.

Lemma mapM_length {A B : Type} (f : A -> Completion B) (l : list A) (ys : list B) :
  mapM f l = Return ys -> List.length ys = List.length l.
Proof.
  intros H. apply mapM_Forall2 in H.
  induction H; simpl; [reflexivity | now f_equal].
Qed.

Lemma fillRow_throws_TypeError (md : list Metadata) (nuRow : JsObject) (idx : nat)
    (r : list JsValue) (e : JsError) :
  fillRow md nuRow idx r = Throw e -> e = TypeError.
Proof.
  revert nuRow idx; induction r as [|item r IH]; intros nuRow idx H; simpl in H.
  - discriminate.
  - destruct (nth_error md idx); [now apply IH in H | now injection H].
Qed.

(** X4. When the columns of the result have pairwise distinct names, none of
    them [__proto__], and no row has more cells than there are columns,
    [driverExecuteSimple] returns one object per row, in order, with one own
    property for each column that the row has a cell for, holding that cell.
    The keys of an object are in the order of [Object.keys]: the column
    names that are array indices first, in ascending order, then the other
    names in the order of the columns.  When no column name is an array
    index, each object pairs the column names with the cells at their
    positions. *)
Theorem driverExecuteSimple_distinct_columns (q : string) (db db' : Engine)
    (dr : DriverResult) (md : list Metadata) (rs : list (list JsValue)) :
  driverExecuteSingle q db = (db', Return dr) ->
  metaData (result dr) = Some md ->
  rows (result dr) = Some rs ->
  NoDup (map metaName md) ->
  ~ In "__proto__" (map metaName md) ->
  Forall (fun r => List.length r <= List.length md) rs ->
  driverExecuteSimple q db = (db', Return (map (rowObject (map metaName md)) rs)) /\
  Forall (fun r =>
            let given := firstn (List.length r) (map metaName md) in
            exists indices,
              Object_keys (rowObject (map metaName md) r)
                = (indices ++ filter (fun key => negb (isArrayIndex key)) given)%list /\
              Permutation indices (filter isArrayIndex given) /\
              Sorted (fun a b => indexLeb a b = true) indices) rs /\
  (Forall (fun name => arrayIndex name = None) (map metaName md) ->
   map (rowObject (map metaName md)) rs = map (combine (map metaName md)) rs).
Proof.
  intros Hd Hmd Hrows Hnd Hproto Hfit. split; [|split].
  - rewrite (driverExecuteSimple_unfold q db db' dr Hd), Hrows.
    unfold metaDataOrNone. rewrite Hmd. f_equal.
    apply mapM_map. eapply Forall_impl; [|exact Hfit].
    intros r Hr. now apply fillRow_rowObject.
  - apply Forall_forall. intros r _. cbv zeta.
    unfold rowObject, Object_keys. rewrite map_map. simpl. rewrite map_id.
    apply ownKeyOrder_indices_first.
  - intros Hplain. apply map_ext_in. intros r Hr.
    rewrite Forall_forall in Hfit. now apply rowObject_plain; [| | |apply Hfit].
Qed.

(** X5. [driverExecuteSimple] returns, with one object per row, as soon as
    the result has rows and no row has more cells than the metadata has
    entries; it throws a [TypeError] when the result has no [rows] property,
    and when some row has more cells than the metadata describes (all of
    them do when the metadata is absent and the row is not empty). *)
Theorem driverExecuteSimple_returns_or_throws (q : string) (db db' : Engine)
    (dr : DriverResult) :
  driverExecuteSingle q db = (db', Return dr) ->
  (rows (result dr) = None -> driverExecuteSimple q db = (db', Throw TypeError)) /\
  (forall rs, rows (result dr) = Some rs ->
     Forall (fun r => List.length r <= List.length (metaDataOrNone (result dr))) rs ->
     exists objs, driverExecuteSimple q db = (db', Return objs) /\
                  List.length objs = List.length rs) /\
  (forall rs, rows (result dr) = Some rs ->
     Exists (fun r => List.length (metaDataOrNone (result dr)) < List.length r) rs ->
     driverExecuteSimple q db = (db', Throw TypeError)).
Proof.
  intros Hd. rewrite (driverExecuteSimple_unfold q db db' dr Hd).
  split; [|split].
  - now intros ->.
  - intros rs -> Hfit.
    destruct (mapM_total (fillRow (metaDataOrNone (result dr)) [] 0) rs) as [objs Hobjs].
    + intros r Hr. apply fillRow_fits.
      rewrite Forall_forall in Hfit. now apply Hfit.
    + exists objs. rewrite Hobjs. split; [reflexivity|].
      now apply mapM_length in Hobjs.
  - intros rs -> Hbad. f_equal.
    apply mapM_throws.
    + intros r e. apply fillRow_throws_TypeError.
    + eapply Exists_impl; [|exact Hbad].
      intros r Hr. exists TypeError. apply fillRow_overflows; [lia | exact Hr].
Qed.

(** X6. The objects that [driverExecuteSimple] returns never hold a key
    twice: when several columns of the result share a name, the object of a
    row has that name once and its value is the cell of the last of these
    columns.  A name that no column with a cell bears is not an own property
    of the object: it reads as the member of [Object.prototype] of that name
    when there is one and as [undefined] otherwise.  This is for results
    without a column named [__proto__]. *)
Theorem driverExecuteSimple_last_column_wins (q : string) (db db' : Engine)
    (dr : DriverResult) (rs : list (list JsValue)) (objs : list JsObject) :
  driverExecuteSingle q db = (db', Return dr) ->
  rows (result dr) = Some rs ->
  ~ In "__proto__" (map metaName (metaDataOrNone (result dr))) ->
  driverExecuteSimple q db = (db', Return objs) ->
  Forall2 (fun r obj =>
             NoDup (Object_keys obj) /\
             forall key,
               objGetOwn obj key
                 = lastNamed (map metaName (metaDataOrNone (result dr))) r key /\
               objGet obj key =
               match lastNamed (map metaName (metaDataOrNone (result dr))) r key with
               | Some v => v
               | None =>
                   if existsb (String.eqb key) Object_prototype_names then JInherited key
                   else JUndefined
               end) rs objs.
Proof.
  intros Hd Hrows Hproto H.
  rewrite (driverExecuteSimple_unfold q db db' dr Hd), Hrows in H.
  injection H as H. apply mapM_Forall2 in H. clear Hrows.
  induction H as [|r obj rs objs Hr _ IH]; [constructor|].
  constructor; [|exact IH].
  split.
  - eapply fillRow_NoDup; [exact Hr | constructor].
  - intros key.
    assert (Hown : objGetOwn obj key
                   = lastNamed (map metaName (metaDataOrNone (result dr))) r key).
    { rewrite (fillRow_objGetOwn (metaDataOrNone (result dr)) [] obj 0 r key Hproto Hr).
      simpl.
      now destruct (lastNamed (map metaName (metaDataOrNone (result dr))) r key). }
    split; [exact Hown|]. unfold objGet. now rewrite Hown.
Qed.

(** X7. [selectTop] on a result with distinct column names, none of them
    [__proto__]: [result] is the rows as objects keyed by column name, and
    [fields] is the keys of the first of them: the names of the columns that
    the first row has a cell for, the array indices among them first, in
    ascending order, then the other names in the order of the metadata.
    When no column name is an array index, [fields] is these names in the
    order of the metadata (all of them when the row is complete). *)
Theorem selectTop_fields (table : string) (offset limit : JsValue)
    (orderBy : option (list OrderBy)) (filters : Filters)
    (schema : option string) (selects : option (list string))
    (db db' : Engine) (q : string) (dr : DriverResult)
    (md : list Metadata) (r0 : list JsValue) (rs : list (list JsValue)) :
  genSelect table offset limit orderBy filters
    (Some (match schema with Some s => s | None => defaultSchema end)) false
    (match selects with Some l => l | None => ["*"] end) = Return q ->
  driverExecuteSingle q db = (db', Return dr) ->
  metaData (result dr) = Some md ->
  rows (result dr) = Some (r0 :: rs) ->
  NoDup (map metaName md) ->
  ~ In "__proto__" (map metaName md) ->
  Forall (fun r => List.length r <= List.length md) (r0 :: rs) ->
  let given := firstn (List.length r0) (map metaName md) in
  selectTop table offset limit orderBy filters schema selects db
  = (db', Return {| trResult := map (rowObject (map metaName md)) (r0 :: rs);
                    trFields := ownKeyOrder given |}) /\
  (exists indices,
     ownKeyOrder given
       = (indices ++ filter (fun key => negb (isArrayIndex key)) given)%list /\
     Permutation indices (filter isArrayIndex given) /\
     Sorted (fun a b => indexLeb a b = true) indices) /\
  (Forall (fun name => arrayIndex name = None) (map metaName md) ->
   map (rowObject (map metaName md)) (r0 :: rs) = map (combine (map metaName md)) (r0 :: rs) /\
   ownKeyOrder given = given) /\
  (List.length r0 = List.length md -> given = map metaName md).
Proof.
  intros Hq Hd Hmd Hrows Hnd Hproto Hfit given.
  assert (Hs : driverExecuteSimple q db
               = (db', Return (map (rowObject (map metaName md)) (r0 :: rs)))).
  { rewrite (driverExecuteSimple_unfold q db db' dr Hd), Hrows.
    unfold metaDataOrNone. rewrite Hmd. f_equal.
    apply mapM_map. eapply Forall_impl; [|exact Hfit].
    intros r Hr. now apply fillRow_rowObject. }
  split; [|split; [|split]].
  - unfold selectTop. rewrite Hq, Hs. cbn [map]. cbv beta iota zeta. do 3 f_equal.
    unfold rowObject, Object_keys. rewrite map_map. simpl. apply map_id.
  - apply ownKeyOrder_indices_first.
  - intros Hplain. split.
    + apply map_ext_in. intros r Hr.
      rewrite Forall_forall in Hfit. now apply rowObject_plain; [| | |apply Hfit].
    + apply ownKeyOrder_plain. apply Forall_forall. intros name Hin.
      rewrite Forall_forall in Hplain. apply Hplain.
      unfold given in Hin. eapply (In_nth_error) in Hin as [n Hn].
      eapply nth_error_In. 
      assert (G : forall (l : list string) k m x, nth_error (firstn k l) m = Some x ->
                    nth_error l m = Some x).
      { induction l as [|y l IHl]; intros [|k] [|m] x Hx; simpl in *;
          try discriminate; [exact Hx | now apply (IHl k)]. }
      apply (G _ _ _ _ Hn).
  - intros Hlen. unfold given. rewrite Hlen, <- (length_map metaName md). apply firstn_all.
Qed.


(** ** Invariants of a cancelable query *)

Ltac split_queryInvariant :=
  match goal with
  | H : queryInvariant _ |- _ =>
      unfold queryInvariant in H; simpl in H; destruct H as (?H1 & ?H2 & ?H3 & ?H4 & ?H5)
  end;
  unfold queryInvariant; simpl;
  split; [|split; [|split; [|split]]].

Lemma cancel_queryInvariant (s : QueryState) : queryInvariant s -> queryInvariant (cancel s).
Proof.
  intros H. destruct s as [cg cn cd dd it w ph]. unfold cancel. simpl.
  destruct cn as [c|]; split_queryInvariant.
  - reflexivity.
  - intros c' Hin. apply in_app_or in Hin as [Hin|[<-|[]]]; [now apply H2 | reflexivity].
  - exact H3.
  - exact H4.
  - exact H5.
  - reflexivity.
  - exact H2.
  - reflexivity.
  - exact H4.
  - exact H5.
Qed.

Lemma settle_queryInvariant (s : QueryState) (w : list string) (o : Outcome) :
  queryInvariant s -> phase s = AwaitingDriver -> queryInvariant (settle s w o).
Proof.
  intros H Hp. destruct s as [cg cn cd dd it w0 ph]. simpl in Hp. subst ph.
  unfold settle. split_queryInvariant.
  - exact H1.
  - exact H2.
  - intros [Hp|Hp]; discriminate.
  - discriminate.
  - intros _. exists o. split; [reflexivity | now apply H4].
Qed.

Lemma step_queryInvariant (s : QueryState) (ev : Event) :
  queryInvariant s -> queryInvariant (step s ev).
Proof.
  intros H. destruct ev as [| |c|e|r]; unfold step; cbv beta iota.
  - destruct s as [cg cn cd dd it w ph]. simpl. destruct ph; try exact H.
    split_queryInvariant.
    + exact H1.
    + exact H2.
    + intros _. apply H3. now left.
    + discriminate.
    + intros Hd. destruct (H5 Hd) as (o & Ho & _). discriminate.
  - now apply cancel_queryInvariant.
  - destruct s as [cg cn cd dd it w ph]. simpl. destruct ph; try exact H.
    split_queryInvariant.
    + exact H1.
    + intros c' Hin. apply H2 in Hin. rewrite H3 in Hin by now right. discriminate.
    + intros [Hp|Hp]; discriminate.
    + intros _. split; [discriminate|].
      destruct dd; [|reflexivity]. destruct (H5 eq_refl) as (o & Ho & _). discriminate.
    + intros Hd. destruct (H5 Hd) as (o & Ho & _). discriminate.
  - destruct s as [cg cn cd dd it w ph]. simpl. destruct ph; try exact H.
    split_queryInvariant.
    + exact H1.
    + exact H2.
    + intros [Hp|Hp]; discriminate.
    + discriminate.
    + intros Hd. destruct (H5 Hd) as (o & Ho & _). discriminate.
  - destruct (phase s) eqn:Ep; try exact H.
    unfold tryBlock, race, catchBlock.
    destruct r as [data|err]; [destruct (canceled s)|]; destruct (canceling s);
      now apply settle_queryInvariant.
Qed.

(** X8. For a cancelable query whose [execute()] is called at most once,
    whatever the order in which that call, the calls of [cancel()] and the
    completions of the pool and of the driver arrive: the cancelable promise
    is tripped only after a [cancel()]; [cancel()] interrupts no connection
    other than the one [execute] holds, and none before one is acquired;
    while the driver call is in flight the connection is held and the
    promise is not discarded; and the promise is discarded only once
    [execute] has settled with a connection. *)
Theorem run_queryInvariant (events : list Event) :
  executeCalls events <= 1 ->
  let s := run events in
  (canceled s = true -> canceling s = true) /\
  (forall c, In c (interrupted s) -> connection s = Some c) /\
  (phase s = NotCalled \/ phase s = AwaitingConnection -> connection s = None) /\
  (phase s = AwaitingDriver -> connection s <> None /\ discarded s = false) /\
  (discarded s = true -> exists o, phase s = Settled o /\ connection s <> None).
Proof.
  intros _. cbv zeta. change (queryInvariant (run events)). unfold run.
  assert (G : forall s, queryInvariant s -> queryInvariant (fold_left step events s)).
  { induction events as [|ev events IH]; intros s H; simpl; [exact H|].
    apply IH, step_queryInvariant, H. }
  apply G. unfold queryInvariant, query. simpl.
  repeat split; auto; try discriminate. intros c [].
Qed.

Lemma cancel_keeps (s : QueryState) :
  discarded (cancel s) = discarded s /\
  (connection s = None -> interrupted (cancel s) = interrupted s).
Proof.
  unfold cancel. destruct (connection s); simpl; split; auto; discriminate.
Qed.

Lemma step_settled (s : QueryState) (ev : Event) (o : Outcome) :
  phase s = Settled o ->
  phase (step s ev) = Settled o /\ connection (step s ev) = connection s /\
  discarded (step s ev) = discarded s /\ warnings (step s ev) = warnings s /\
  (connection s = None -> interrupted (step s ev) = interrupted s).
Proof.
  intros H. destruct ev; unfold step; cbv beta iota; rewrite ?H; try (now repeat split).
  destruct (cancel_fields s) as (Hp & Hc & Hw & _).
  destruct (cancel_keeps s) as (Hd & Hi).
  rewrite Hp, Hc, Hw, Hd, H. now repeat split.
Qed.

Lemma settled_frozen (events : list Event) (s : QueryState) (o : Outcome) :
  phase s = Settled o ->
  let s' := fold_left step events s in
  phase s' = Settled o /\ connection s' = connection s /\
  discarded s' = discarded s /\ warnings s' = warnings s /\
  (connection s = None -> interrupted s' = interrupted s).
Proof.
  cbv zeta. revert s; induction events as [|ev events IH]; intros s H; simpl.
  - now repeat split.
  - destruct (step_settled s ev o H) as (Hp & Hc & Hd & Hw & Hi).
    destruct (IH _ Hp) as (Hp' & Hc' & Hd' & Hw' & Hi').
    rewrite Hp', Hc', Hd', Hw', Hc, Hd, Hw. repeat split.
    intros Hn. rewrite Hi' by congruence. now apply Hi.
Qed.

Lemma cancels_keep (n : nat) (s : QueryState) :
  let s' := fold_left step (repeat CallCancel n) s in
  discarded s' = discarded s /\
  (connection s = None -> interrupted s' = interrupted s).
Proof.
  cbv zeta. revert s; induction n as [|n IH]; intros s; simpl; [now split|].
  change (step s CallCancel) with (cancel s).
  destruct (IH (cancel s)) as (Hd & Hi).
  destruct (cancel_keeps s) as (Hd' & Hi').
  destruct (cancel_fields s) as (_ & Hc & _).
  rewrite Hd, Hd'. split; [reflexivity|].
  intros Hn. rewrite Hi by congruence. now apply Hi'.
Qed.

(** X9. When the pool fails to hand out a connection, [execute()] rejects
    with the pool's error as it is, whether or not [cancel()] was called
    before: the failure is not reported as a cancellation, its message is not
    rewritten, no warning is logged, nothing is interrupted, and the
    cancelable promise is never discarded, whatever happens afterwards short
    of a second call of [execute()]. *)
Theorem connection_failure_is_rethrown (n0 n1 : nat) (e : JsError) (more : list Event) :
  executeCalls more = 0 ->
  let s := run (repeat CallCancel n0 ++ CallExecute :: repeat CallCancel n1
                ++ ConnectionFailed e :: more)%list in
  outcome s = Some (Rejected e) /\ warnings s = [] /\ interrupted s = [] /\
  discarded s = false /\ connection s = None.
Proof.
  intros _. cbv zeta. unfold run.
  rewrite fold_left_app, fold_left_step_cons.
  destruct (cancels_fields n0 query) as (Hp0 & Hc0 & Hw0 & _).
  destruct (cancels_keep n0 query) as (Hd0 & Hi0).
  set (s0 := fold_left step (repeat CallCancel n0) query) in *.
  assert (E1 : phase (step s0 CallExecute) = AwaitingConnection /\
               connection (step s0 CallExecute) = None /\
               warnings (step s0 CallExecute) = [] /\
               discarded (step s0 CallExecute) = false /\
               interrupted (step s0 CallExecute) = []).
  { unfold step; cbv beta iota. rewrite Hp0. simpl.
    rewrite Hc0, Hw0, Hd0, Hi0 by reflexivity. now repeat split. }
  destruct E1 as (Hp1 & Hc1 & Hw1 & Hd1 & Hi1).
  set (s1 := step s0 CallExecute) in *.
  rewrite fold_left_app, fold_left_step_cons.
  destruct (cancels_fields n1 s1) as (Hp2 & Hc2 & Hw2 & _).
  destruct (cancels_keep n1 s1) as (Hd2 & Hi2).
  set (s2 := fold_left step (repeat CallCancel n1) s1) in *.
  assert (E3 : phase (step s2 (ConnectionFailed e)) = Settled (Rejected e) /\
               connection (step s2 (ConnectionFailed e)) = None /\
               warnings (step s2 (ConnectionFailed e)) = [] /\
               discarded (step s2 (ConnectionFailed e)) = false /\
               interrupted (step s2 (ConnectionFailed e)) = []).
  { unfold step; cbv beta iota. rewrite Hp2, Hp1. simpl.
    rewrite Hc2, Hw2, Hd2, Hi2 by exact Hc1. now repeat split. }
  destruct E3 as (Hp3 & Hc3 & Hw3 & Hd3 & Hi3).
  set (s3 := step s2 (ConnectionFailed e)) in *.
  destruct (settled_frozen more s3 _ Hp3) as (Hp & Hc & Hd & Hw & Hi).
  unfold outcome. rewrite Hp, Hc, Hd, Hw, Hi by exact Hc3. now repeat split.
Qed.


(** ** Paths of the Oracle client libraries *)

Lemma halve_double (path : string) : halveBackslashes (doubleBackslashes path) = path.
Proof.
  induction path as [|c path IH]; [reflexivity|].
  cbn [doubleBackslashes].
  destruct (Ascii.eqb c backslash) eqn:E.
  - apply Ascii.eqb_eq in E. subst c.
    cbn [halveBackslashes]. rewrite Ascii.eqb_refl. simpl. now rewrite IH.
  - destruct (doubleBackslashes path) as [|a s] eqn:D.
    + destruct path as [|d path]; [reflexivity|].
      simpl in D. destruct (Ascii.eqb d backslash); discriminate.
    + cbn [halveBackslashes] in *. rewrite E. simpl. now rewrite IH.
Qed.

Lemma double_length (path : string) :
  String.length (doubleBackslashes path) = String.length path + countBackslashes path.
Proof.
  induction path as [|c path IH]; [reflexivity|].
  simpl. destruct (Ascii.eqb c backslash); simpl; rewrite IH; lia.
Qed.

(** X10. [platformPath] answers [null] for an absent or empty path and a
    path otherwise, never an empty one.  Off Windows the path is returned as
    it is.  On Windows every backslash is doubled and nothing else changes:
    halving the pairs gives the path back, so two different paths are never
    mapped to the same one, and the result is longer by the number of
    backslashes. *)
Theorem platformPath_doubles_backslashes (path : option string) :
  (platformPath path = None <-> path = None \/ path = Some "") /\
  (forall p, platformPath path = Some p -> p <> "") /\
  (isWindows = false -> forall p, path = Some p -> p <> "" -> platformPath path = Some p) /\
  (isWindows = true -> forall p, path = Some p -> p <> "" ->
     exists p', platformPath path = Some p' /\ halveBackslashes p' = p /\
                String.length p' = String.length p + countBackslashes p) /\
  (forall other, platformPath path = platformPath other -> platformPath path <> None ->
     path = other).
Proof.
  assert (Hne : forall p, p <> "" -> doubleBackslashes p <> "").
  { intros [|c p] H; [congruence|]. simpl. destruct (Ascii.eqb c backslash); discriminate. }
  assert (Hval : forall q, platformPath q <> None ->
            exists p, q = Some p /\ p <> "" /\
                      platformPath q = Some (if isWindows then doubleBackslashes p else p)).
  { intros [[|c p]|] H; unfold platformPath in *; simpl in *; try congruence.
    exists (String c p). repeat split; [discriminate|]. now destruct isWindows. }
  split; [|split; [|split; [|split]]].
  - unfold platformPath. destruct path as [[|c p]|]; simpl.
    + split; auto.
    + split; [destruct isWindows; discriminate | intros [H|H]; discriminate].
    + split; auto.
  - intros p H. destruct (Hval path) as (p0 & -> & Hp0 & E); [congruence|].
    rewrite E in H. injection H as <-. destruct isWindows; [now apply Hne | exact Hp0].
  - intros Hw p -> Hp. destruct (Hval (Some p)) as (p0 & [= <-] & _ & E).
    + unfold platformPath. destruct p; [congruence|]. simpl. now destruct isWindows.
    + now rewrite E, Hw.
  - intros Hw p -> Hp. destruct (Hval (Some p)) as (p0 & [= <-] & _ & E).
    + unfold platformPath. destruct p; [congruence|]. simpl. now destruct isWindows.
    + rewrite E, Hw. exists (doubleBackslashes p).
      split; [reflexivity|]. split; [apply halve_double | apply double_length].
  - intros other Heq Hsome.
    destruct (Hval path Hsome) as (p & -> & _ & E).
    destruct (Hval other) as (p' & -> & _ & E'); [congruence|].
    rewrite E, E' in Heq. injection Heq as Heq. f_equal.
    destruct isWindows; [|exact Heq].
    rewrite <- (halve_double p), <- (halve_double p'). now rewrite Heq.
Qed.

(** ** Column defaults and types *)

Lemma trimEnd_cons (c : ascii) (s : string) :
  Js.trimEnd (String c s) =
  match Js.trimEnd s with
  | EmptyString => if Js.isWhiteSpace c then EmptyString else String c EmptyString
  | kept => String c kept
  end.
Proof. reflexivity. Qed.

Lemma trimEnd_idempotent (s : string) : Js.trimEnd (Js.trimEnd s) = Js.trimEnd s.
Proof.
  induction s as [|c s IH]; [reflexivity|].
  rewrite trimEnd_cons.
  destruct (Js.trimEnd s) as [|d kept] eqn:E.
  - destruct (Js.isWhiteSpace c) eqn:Ec; [reflexivity|].
    rewrite trimEnd_cons. cbn [Js.trimEnd]. now rewrite Ec.
  - rewrite trimEnd_cons, IH. reflexivity.
Qed.

(** X11. [parseDefault] answers [null] exactly for an absent or empty
    default.  Otherwise it answers the default without its trailing white
    space, and only that is removed; a default made of white space only
    therefore yields the empty string, which the column still reports as
    having a default ([hasDefault]), although parsing the empty string again
    would yield [null]. *)
Theorem parseDefault_trims (dataDefault : option string) :
  (parseDefault dataDefault = None <-> dataDefault = None \/ dataDefault = Some "") /\
  (hasDefault dataDefault = true <-> exists d, dataDefault = Some d /\ d <> "") /\
  (forall v, parseDefault dataDefault = Some v ->
     Js.trimEnd v = v /\
     exists d w, dataDefault = Some d /\ d = v ++ w /\ allWhiteSpace w = true) /\
  (forall d, dataDefault = Some d -> d <> "" -> allWhiteSpace d = true ->
     parseDefault dataDefault = Some "" /\ hasDefault dataDefault = true /\
     parseDefault (parseDefault dataDefault) = None).
Proof.
  unfold hasDefault, parseDefault.
  split; [|split; [|split]].
  - destruct dataDefault as [[|c d]|]; simpl.
    + split; auto.
    + split; [discriminate | intros [H|H]; discriminate].
    + split; auto.
  - destruct dataDefault as [[|c d]|]; simpl.
    + split; [discriminate | intros (d & [= <-] & H); congruence].
    + split; [intros _; exists (String c d); split; [reflexivity | discriminate] | reflexivity].
    + split; [discriminate | intros (d & H & _); discriminate].
  - intros v H. destruct dataDefault as [d|]; [|discriminate].
    destruct (negb (Js.truthy d)); [discriminate|].
    injection H as <-. split; [apply trimEnd_idempotent|].
    destruct (trimEnd_suffix d) as (w & Hw & Hws).
    exists d, w. auto.
  - intros d -> Hd Hws. destruct d as [|c d]; [congruence|].
    cbn [Js.truthy negb].
    rewrite (proj2 (trimEnd_empty_iff (String c d)) Hws). simpl. auto.
Qed.


(** ** Indexes *)

Lemma groupGet_groupInsert {A : Type} (groups : list (string * list A))
    (key k : string) (v : A) :
  groupGet (groupInsert groups key v) k =
  if (key =? k)%string
  then Some (match groupGet groups k with Some vs => vs ++ [v] | None => [v] end)%list
  else groupGet groups k.
Proof.
  induction groups as [|[k0 vs] groups IH]; simpl.
  - now destruct (key =? k)%string.
  - destruct (k0 =? key)%string eqn:E0; simpl.
    + apply String.eqb_eq in E0. subst k0. now destruct (key =? k)%string.
    + rewrite IH. destruct (k0 =? k)%string eqn:E1; [|reflexivity].
      apply String.eqb_eq in E1. subst k0.
      rewrite String.eqb_sym, E0. reflexivity.
Qed.

Lemma groupGet_fold {A : Type} (key : A -> string) (l : list A)
    (groups : list (string * list A)) (k : string) :
  groupGet (fold_left (fun g v => groupInsert g (key v) v) l groups) k =
  match groupGet groups k, filter (fun v => (key v =? k)%string) l with
  | Some vs, more => Some (vs ++ more)%list
  | None, [] => None
  | None, more => Some more
  end.
Proof.
  revert groups; induction l as [|v l IH]; intros groups; simpl.
  - destruct (groupGet groups k); [now rewrite app_nil_r | reflexivity].
  - rewrite IH, groupGet_groupInsert.
    destruct (key v =? k)%string; [|reflexivity].
    destruct (groupGet groups k) as [vs|]; simpl; [now rewrite <- app_assoc | reflexivity].
Qed.

(** The group of a key holds the elements with that key, in the order of
    the collection; a key that no element has is absent. *)
Lemma groupGet_groupBy {A : Type} (key : A -> string) (l : list A) (k : string) :
  groupGet (groupBy key l) k =
  match filter (fun v => (key v =? k)%string) l with
  | [] => None
  | members => Some members
  end.
Proof. unfold groupBy. now rewrite groupGet_fold. Qed.

Lemma Permutation_filter {A : Type} (f : A -> bool) (l l' : list A) :
  Permutation l l' -> Permutation (filter f l) (filter f l').
Proof.
  induction 1 as [|x l l' _ IH|x y l|l l' l'' _ IH1 _ IH2]; simpl.
  - constructor.
  - destruct (f x); [now constructor | exact IH].
  - destruct (f x), (f y); try apply Permutation_refl. apply perm_swap.
  - eapply perm_trans; eassumption.
Qed.

Lemma StronglySorted_filter {A : Type} (R : A -> A -> Prop) (f : A -> bool) (l : list A) :
  StronglySorted R l -> StronglySorted R (filter f l).
Proof.
  induction 1 as [|x l _ IH Hx]; simpl; [constructor|].
  destruct (f x); [|exact IH].
  constructor; [exact IH|].
  apply Forall_forall. intros y Hy. apply filter_In in Hy as [Hy _].
  rewrite Forall_forall in Hx. now apply Hx.
Qed.

Lemma filter_within {A : Type} (f g : A -> bool) (l : list A) :
  (forall x, f x = true -> g x = true) -> filter f (filter g l) = filter f l.
Proof.
  intros H. induction l as [|x l IH]; simpl; [reflexivity|].
  destruct (g x) eqn:Eg; simpl.
  - now rewrite IH.
  - destruct (f x) eqn:Ef; [|exact IH]. apply H in Ef. congruence.
Qed.

Lemma sortByPosition_sorted (l : list IndColumnRow) :
  StronglySorted (fun a b => (icPosition a <= icPosition b)%Z) (sortByPosition l).
Proof.
  apply Sorted_StronglySorted; [intros a b c Hab Hbc; lia|].
  unfold sortByPosition.
  pose proof (orderRows_Sorted (fun a b => (icPosition a <=? icPosition b)%Z)) as H.
  assert (Htot : forall a b : IndColumnRow,
             (icPosition a <=? icPosition b)%Z = false ->
             (icPosition b <=? icPosition a)%Z = true).
  { intros a b Hab. apply Z.leb_le. apply Z.leb_gt in Hab. lia. }
  specialize (H Htot l).
  induction H as [|a l' Hs IH Hd]; constructor; [exact IH|].
  destruct Hd as [|b l'' Hab]; constructor. now apply Z.leb_le.
Qed.



(** ** Upper-casing of names *)

Lemma toUpperCase_app (s t : string) :
  Js.toUpperCase (s ++ t) = Js.toUpperCase s ++ Js.toUpperCase t.
Proof.
  induction s as [|c s IH]; simpl; [reflexivity | now rewrite IH, append_assoc].
Qed.

Lemma upperUnit_idempotent (c : ascii) : Js.toUpperCase (Js.upperUnit c) = Js.upperUnit c.
Proof. destruct c as [[] [] [] [] [] [] [] []]; reflexivity. Qed.

Lemma upperUnit_not_empty (c : ascii) : Js.upperUnit c <> "".
Proof. destruct c as [[] [] [] [] [] [] [] []]; discriminate. Qed.

Lemma toUpperCase_idempotent (s : string) :
  Js.toUpperCase (Js.toUpperCase s) = Js.toUpperCase s.
Proof.
  induction s as [|c s IH]; simpl; [reflexivity|].
  now rewrite toUpperCase_app, upperUnit_idempotent, IH.
Qed.

Lemma truthy_toUpperCase (s : string) : Js.truthy (Js.toUpperCase s) = Js.truthy s.
Proof.
  destruct s as [|c s]; simpl; [reflexivity|].
  pose proof (upperUnit_not_empty c) as H.
  now destruct (Js.upperUnit c).
Qed.

(** ** Triggers and table properties *)


(** ** Foreign keys *)

Lemma isForeignKeyOf_inv (table : string) (schema : option string)
    (a : ConsColumnRow) (c c_pk : KeyConstraintRow) (r_a : ConsColumnRow) :
  isForeignKeyOf table schema (a, c, c_pk, r_a) = true ->
  colTableName a = Js.toUpperCase table /\
  colOwner a = kcOwner c /\
  kcType c = "R" /\ kcType c_pk = "P" /\
  kcROwner c = Some (kcOwner c_pk) /\
  (forall s, schema = Some s -> s <> "" -> colOwner a = Js.toUpperCase s).
Proof.
  unfold isForeignKeyOf. intros H.
  repeat (apply andb_true_iff in H as [H ?]).
  repeat match goal with
         | E : (_ =? _)%string = true |- _ => apply String.eqb_eq in E
         end.
  repeat split; try assumption.
  - destruct (kcROwner c) as [o|]; [|discriminate].
    match goal with E : (o =? _)%string = true |- _ => apply String.eqb_eq in E; now subst end.
  - intros s -> Hs. destruct s as [|ch s]; [congruence|]. simpl in *.
    match goal with E : (colOwner a =? _)%string = true |- _ => now apply String.eqb_eq in E end.
Qed.

(** X14. [getTableKeys] looks the table up by its upper-cased name (and the
    schema by its upper-cased name): every relation it returns starts from
    the table of that upper-cased name and from the upper-cased schema when
    one is given, so the answer does not depend on the case of the arguments,
    and a table whose stored name is not upper case yields no relation from
    a query by its own name. *)
Theorem getTableKeys_upper_cases (table : string) (schema : option string) :
  (forall k, In k (getTableKeys table schema) ->
     keyFromTable k = Js.toUpperCase table /\
     (forall s, schema = Some s -> s <> "" -> keyFromSchema k = Js.toUpperCase s)) /\
  getTableKeys table schema
    = getTableKeys (Js.toUpperCase table) (option_map Js.toUpperCase schema) /\
  (forall k, In k (getTableKeys table schema) -> keyFromTable k = table ->
     Js.toUpperCase table = table).
Proof.
  assert (Hmem : forall k, In k (getTableKeys table schema) ->
            keyFromTable k = Js.toUpperCase table /\
            (forall s, schema = Some s -> s <> "" -> keyFromSchema k = Js.toUpperCase s)).
  { intros k Hk. unfold getTableKeys in Hk. apply in_map_iff in Hk as (r & <- & Hr).
    apply filter_In in Hr as [_ Hr]. destruct r as [[[a c] c_pk] r_a].
    apply isForeignKeyOf_inv in Hr as (Ht & Ho & _ & _ & _ & Hs). simpl.
    split; [exact Ht|]. intros s E Hne. rewrite <- Ho. now apply Hs. }
  split; [exact Hmem|]. split.
  - unfold getTableKeys. f_equal. apply filter_ext.
    intros [[[a c] c_pk] r_a]. unfold isForeignKeyOf.
    rewrite toUpperCase_idempotent.
    destruct schema as [s|]; simpl; [|reflexivity].
    now rewrite truthy_toUpperCase, toUpperCase_idempotent.
  - intros k Hk Hfrom. apply Hmem in Hk as [Ht _]. congruence.
Qed.

(** ** Scoping a listing to a schema *)

(** X15. [listTables] and [listViews] look the schema up by its upper-cased
    name, so the case of [filter.schema] does not matter; an empty schema
    name scopes nothing; and an empty only-list makes both return nothing,
    unlike an omitted one. *)
Theorem listing_schema_case (s : string) (names ignored : option (list string)) :
  let withSchema sch := Some {| filterSchema := sch; only := names; ignore := ignored |} in
  listTables (withSchema (Some s)) = listTables (withSchema (Some (Js.toUpperCase s))) /\
  listViews (withSchema (Some s)) = listViews (withSchema (Some (Js.toUpperCase s))) /\
  listTables (withSchema (Some "")) = listTables (withSchema None) /\
  listViews (withSchema (Some "")) = listViews (withSchema None) /\
  (names = Some [] -> forall sch, listTables (withSchema sch) = [] /\
                                  listViews (withSchema sch) = []).
Proof.
  cbv zeta.
  assert (Hscope : forall b,
            scopeToSchema (Some {| filterSchema := Some s; only := names; ignore := ignored |}) b
            = scopeToSchema
                (Some {| filterSchema := Some (Js.toUpperCase s); only := names;
                         ignore := ignored |}) b).
  { intros b. unfold scopeToSchema.
    now rewrite truthy_toUpperCase, toUpperCase_idempotent. }
  split; [|split; [|split; [|split]]].
  - unfold listTables. now rewrite Hscope.
  - unfold listViews. now rewrite Hscope.
  - reflexivity.
  - reflexivity.
  - intros -> sch.
    assert (Hnone : forall b column, runSelect (addClause b (WhereIn column [])) = []).
    { intros b column. unfold runSelect, addClause. simpl.
      induction (dictionary (fromTable b)) as [|row rows IH]; simpl; [reflexivity|].
      rewrite forallb_app. simpl.
      destruct (objGet row column); rewrite ?andb_false_r; exact IH. }
    assert (Hmore : forall b c, runSelect b = [] -> runSelect (addClause b c) = []).
    { intros b c Hb. destruct (runSelect (addClause b c)) as [|row rows] eqn:E;
        [reflexivity|].
      assert (Hin : In row (runSelect (addClause b c))) by (rewrite E; now left).
      apply runSelect_addClause in Hin as [Hin _]. rewrite Hb in Hin. contradiction. }
    split.
    + unfold listTables. destruct ignored; simpl; [rewrite Hmore|]; rewrite ?Hnone; reflexivity.
    + unfold listViews. destruct ignored; simpl; [rewrite Hmore|]; rewrite ?Hnone; reflexivity.
Qed.


(** ** Errors of SELECT generation *)

Lemma mapM_Throw_inv {A B : Type} (f : A -> Completion B) (l : list A) (e : JsError) :
  mapM f l = Throw e -> exists x, In x l /\ f x = Throw e.
Proof.
  induction l as [|x l IH]; simpl; [discriminate|].
  destruct (f x) as [y|e'] eqn:Ex; simpl.
  - destruct (mapM f l) as [ys|e'']; simpl; [discriminate|].
    intros [= <-]. destruct IH as (x' & Hin & Hx'); [reflexivity|].
    exists x'. split; [now right | exact Hx'].
  - intros [= <-]. exists x. split; [now left | exact Ex].
Qed.

Lemma genFilterItem_Throw (item : TableFilter) (e : JsError) :
  genFilterItem item = Throw e <->
  e = TypeError /\ filterType item = "in" /\ forall vs, filterValue item <> VArray vs.
Proof.
  unfold genFilterItem.
  destruct (filterType item =? "in")%string eqn:E.
  - apply String.eqb_eq in E.
    destruct (filterValue item) as [|v|vs]; split;
      try (intros [= <-]; repeat split; [exact E | discriminate]);
      try (intros (-> & _ & _); reflexivity).
    + discriminate.
    + intros (_ & _ & H). now contradiction (H vs).
  - apply String.eqb_neq in E.
    destruct (Js.includes (filterType item) "is");
      (split; [discriminate | intros (_ & H & _); contradiction]).
Qed.

(** X16. An empty filter list and an empty ordering are treated as absent:
    the query is the one generated without them.  [genSelect] throws only a
    [TypeError], and exactly when the filters are a list with an "in" entry
    whose value is not an array; with a raw string or no filters it always
    returns a query. *)
Theorem genSelect_empty_and_errors (table : string) (offset limit : JsValue)
    (orderBy : option (list OrderBy)) (filters : Filters) (schema : option string)
    (count : bool) (selects : list string) :
  genSelect table offset limit (Some []) (FiltersList []) schema count selects
    = genSelect table offset limit None FiltersNone schema count selects /\
  (forall e,
     genSelect table offset limit orderBy filters schema count selects = Throw e <->
     e = TypeError /\
     exists l item, filters = FiltersList l /\ In item l /\ filterType item = "in" /\
                    forall vs, filterValue item <> VArray vs).
Proof.
  split; [reflexivity|].
  intros e. unfold genSelect.
  destruct filters as [raw|l|]; simpl.
  - split; [discriminate | intros (_ & l & item & H & _); discriminate].
  - unfold genFilters. destruct l as [|f fs].
    + simpl. split; [discriminate | intros (_ & l & item & [= <-] & [] & _)].
    + cbn [List.length Nat.ltb Nat.leb].
      destruct (mapM genFilterItem (f :: fs)) as [fragments|e'] eqn:E; simpl.
      * split; [discriminate|].
        intros (-> & l & item & [= <-] & Hin & Ht & Hv).
        apply mapM_Forall2 in E.
        assert (G : forall items frags,
                   Forall2 (fun x y => genFilterItem x = Return y) items frags ->
                   In item items -> exists y, genFilterItem item = Return y).
        { induction 1 as [|x y items frags Hx _ IH]; intros Hi; [contradiction|].
          destruct Hi as [<-|Hi]; [now exists y | now apply IH]. }
        destruct (G _ _ E Hin) as [y Hy].
        assert (Hthrow : genFilterItem item = Throw TypeError)
          by (apply genFilterItem_Throw; auto).
        congruence.
      * split.
        -- intros [= <-]. apply mapM_Throw_inv in E as (item & Hin & Hitem).
           apply genFilterItem_Throw in Hitem as (-> & Ht & Hv).
           split; [reflexivity|]. now exists (f :: fs), item.
        -- intros (-> & l & item & [= <-] & Hin & Ht & Hv). f_equal.
           apply mapM_Throw_inv in E as (item' & _ & Hitem').
           now apply genFilterItem_Throw in Hitem'.
  - split; [discriminate | intros (_ & l & item & H & _); discriminate].
Qed.

(** ** What a change set returns *)

(** X17. [applyChanges] runs the inserts, updates, deletes and reselects as
    one script.  When the batch fails, its error is thrown unchanged.  With
    no update list the result is empty.  With an update list, when the batch
    ends with one reselect result per update, the result is these reselect
    results without the last one, so one fewer than there are updates. *)
Theorem applyChanges_returns (changes : TableChanges) (db db' : Engine) :
  (forall e, driverExecuteMultiple (changeScript changes) db = (db', Throw e) ->
     applyChanges changes db = (db', Throw e)) /\
  (forall results, updates changes = None ->
     driverExecuteMultiple (changeScript changes) db = (db', Return results) ->
     applyChanges changes db = (db', Return [])) /\
  (forall us others sel, updates changes = Some us ->
     driverExecuteMultiple (changeScript changes) db = (db', Return (others ++ sel)%list) ->
     List.length sel = List.length us ->
     applyChanges changes db = (db', Return (removelast sel)) /\
     List.length (removelast sel) = List.length us - 1).
Proof.
  unfold changeScript. split; [|split].
  - intros e H. unfold applyChanges.
    destruct (updates changes); [|rewrite app_nil_r in H]; now rewrite H.
  - intros results Hu H. rewrite Hu, app_nil_r in H.
    apply applyChanges_no_updates with results; [exact Hu|]. rewrite Hu. exact H.
  - intros us others sel Hu H Hlen. split.
    + apply applyChanges_reselects with us others; try assumption.
      rewrite Hu in *. now rewrite <- !app_assoc in H.
    + rewrite removelast_firstn_len, length_firstn. lia.
Qed.


(** X18. [getPrimaryKeys] and [getPrimaryKey] look the schema up by its
    upper-cased name, so the case of the schema argument does not matter,
    and an empty schema name scopes nothing; the table name is compared as it
    is given. *)
Theorem getPrimaryKeys_schema_case (table s : string) :
  getPrimaryKeys table (Some s) = getPrimaryKeys table (Some (Js.toUpperCase s)) /\
  getPrimaryKey table (Some s) = getPrimaryKey table (Some (Js.toUpperCase s)) /\
  getPrimaryKeys table (Some "") = getPrimaryKeys table None /\
  (forall schema pk, In pk (getPrimaryKeys table schema) ->
     exists cols, In cols all_cons_columns /\ colTableName cols = table /\
                  columnName pk = colColumnName cols /\ position pk = colPosition cols).
Proof.
  assert (H : getPrimaryKeys table (Some s) = getPrimaryKeys table (Some (Js.toUpperCase s))).
  { unfold getPrimaryKeys. do 2 f_equal. apply filter_ext. intros [cons cols].
    unfold isPrimaryKeyColumnOf.
    now rewrite truthy_toUpperCase, toUpperCase_idempotent. }
  split; [exact H|]. split; [unfold getPrimaryKey; now rewrite H|].
  split; [reflexivity|].
  intros schema pk Hin. unfold getPrimaryKeys in Hin.
  apply in_map_iff in Hin as ([cons cols] & <- & Hin).
  apply (Permutation_in _ (orderRows_Permutation _ _)) in Hin.
  apply filter_In in Hin as [Hprod Hcond].
  apply in_prod_iff in Hprod as [_ Hcols].
  apply isPrimaryKeyColumnOf_table in Hcond.
  exists cols. now repeat split.
Qed.


End OracleClient.

(* ================================================================== *)
(** * The client on concrete inputs *)

Abbreviation demo_client f :=
  (f (list string) demo_identify demo_execute demo_commit demo_getConnection demo_close
      ) (only parsing).

Abbreviation demo_changes f :=
  (demo_client f string string string
     demo_buildInsertQueries demo_buildUpdateQueries demo_buildDeleteQueries
     demo_buildSelectQueriesFromUpdates) (only parsing).

(** ** Change sets *)

(** C1. A change set with one insert, one update and one delete runs as a
    batch of four statements, the last being the reselect of the updated
    row; [applyChanges] returns no result at all, where one reselect result
    is due.  With two updates it returns the reselect of the first only. *)
Theorem applyChanges_drops_last_reselect :
  let one := {| inserts := Some ["1"]; updates := Some ["2"]; deletes := Some ["3"] |} in
  let two := {| inserts := None; updates := Some ["2"; "5"]; deletes := None |} in
  snd (demo_changes applyChanges one []) = Return [] /\
  fst (demo_changes applyChanges one [])
    = ["INSERT INTO T (ID) VALUES (1)"; "UPDATE T SET N = N + 1 WHERE ID = 2";
       "DELETE FROM T WHERE ID = 3"; "SELECT * FROM T WHERE ID = 2"; "COMMIT"] /\
  (exists r, snd (demo_changes applyChanges two []) = Return [r] /\
             text (info r) = "SELECT * FROM T WHERE ID = 2;").
Proof.
  cbv zeta. split; [|split].
  - vm_compute. reflexivity.
  - vm_compute. reflexivity.
  - eexists. split; vm_compute; reflexivity.
Qed.

(** ** Tables and views *)

(** C2. With V1 and V2 in the only-list and V1 in the ignore-list,
    [listViews] returns V1, the ignored view, and not V2; on the same
    filter shape [listTables] returns T2 and not the ignored T1. *)
Theorem listViews_returns_ignored_view :
  listViews demo_dictionary
    (Some {| filterSchema := None; only := Some ["V1"; "V2"]; ignore := Some ["V1"] |})
  = [ {| entitySchema := JString "HR"; entityName := JString "V1"; entityType := "view" |} ] /\
  listTables demo_dictionary
    (Some {| filterSchema := None; only := Some ["T1"; "T2"]; ignore := Some ["T1"] |})
  = [ {| entitySchema := JString "HR"; entityName := JString "T2"; entityType := "table" |} ].
Proof. split; vm_compute; reflexivity. Qed.

(** ** Cancelable queries *)



Lemma execute_rethrows_witness :
  outcome (run demo_CANCELED_BY_USER
             [CallExecute; ConnectionAcquired 1; DriverSettled (Throw demo_ORA_00942)])
  = Some (Rejected
            {| errName := "Error";
               message := Some ("ORA-00942: table or view does not exist - have you tried "
                                  ++ dquote ++ "quoting" ++ dquote ++ " the table name?");
               errorNum := Some 942%Z |}).
Proof.
  pose proof (execute_rethrows demo_CANCELED_BY_USER
                (run demo_CANCELED_BY_USER [CallExecute; ConnectionAcquired 1])
                demo_ORA_00942 eq_refl eq_refl) as (H & Hm & _).
  rewrite (Hm _ eq_refl eq_refl) in H. exact H.
Defined.

(** ** SELECT generation *)

Abbreviation demo_dialect f :=
  (f demo_wrapIdentifier demo_escapeString demo_wrapLiteral demo_joinFilters) (only parsing).

Lemma genSelect_pagination_witness :
  let page (text : string) :=
    nl ++ "      SELECT * " ++
    nl ++ "      FROM " ++ dquote ++ "HR" ++ dquote ++ "." ++ dquote ++ "ORDERS" ++ dquote ++
    nl ++ "      " ++
    nl ++ "    " ++
    nl ++ "      " ++
    nl ++ "      " ++ text ++
    nl ++ "    " in
  demo_dialect genSelect "ORDERS" (JNumber 20) (JNumber 10) None FiltersNone (Some "HR") false ["*"]
    = Return (page "OFFSET 20 ROWS FETCH NEXT 10 ROWS ONLY") /\
  demo_dialect genSelect "ORDERS" (JNumberOther "1e+21") (JNumber 10) None FiltersNone (Some "HR")
      false ["*"]
    = Return (page "OFFSET 1e+21 ROWS FETCH NEXT 10 ROWS ONLY") /\
  demo_dialect genSelect "ORDERS" (JNumber 20) JUndefined None FiltersNone (Some "HR") false ["*"]
    = Return (page "") /\
  demo_dialect genSelect "ORDERS" JUndefined JUndefined None FiltersNone (Some "HR") false ["*"]
    = Return (page "").
Proof.
  cbv zeta.
  destruct (demo_dialect genSelect_pagination "ORDERS" None FiltersNone (Some "HR") false ["*"]
              (JNumber 20) (JNumber 10) eq_refl eq_refl) as (Hboth & _).
  destruct (demo_dialect genSelect_pagination "ORDERS" None FiltersNone (Some "HR") false ["*"]
              (JNumberOther "1e+21") (JNumber 10) eq_refl eq_refl) as (Hlarge & _).
  destruct (demo_dialect genSelect_pagination "ORDERS" None FiltersNone (Some "HR") false ["*"]
              (JNumber 20) JUndefined eq_refl eq_refl) as (Hone & _ & _ & _ & Hsame & _).
  destruct (Hboth "" eq_refl) as [-> _].
  destruct (Hlarge "" eq_refl) as [-> _].
  rewrite (Hsame eq_refl).
  destruct (Hone "" eq_refl) as [_ ->].
  repeat split; reflexivity.
Defined.

Lemma genFilters_fragments_witness :
  let deleted := {| filterField := "DELETED_AT"; filterType := "is not";
                    filterValue := VString "yesterday"; filterOp := None |} in
  let status := {| filterField := "STATUS"; filterType := "in";
                   filterValue := VArray ["paid"; "sent"]; filterOp := None |} in
  genFilterItem demo_wrapIdentifier demo_escapeString deleted
    = Return (dquote ++ "DELETED_AT" ++ dquote ++ " IS NOT NULL") /\
  genFilterItem demo_wrapIdentifier demo_escapeString status
    = Return (dquote ++ "STATUS" ++ dquote ++ " IN ('paid','sent')") /\
  exists clause,
    genFilters demo_wrapIdentifier demo_escapeString demo_joinFilters (Some [deleted; status])
    = Return clause.
Proof.
  cbv zeta.
  pose proof (genFilters_fragments demo_wrapIdentifier demo_escapeString demo_joinFilters
                [ {| filterField := "DELETED_AT"; filterType := "is not";
                     filterValue := VString "yesterday"; filterOp := None |};
                  {| filterField := "STATUS"; filterType := "in";
                     filterValue := VArray ["paid"; "sent"]; filterOp := None |} ])
    as (_ & Hisnot & Hin & _ & Htotal).
  split; [|split].
  - rewrite Hisnot by reflexivity. reflexivity.
  - rewrite (Hin _ ["paid"; "sent"]) by reflexivity. reflexivity.
  - apply Htotal.
    + discriminate.
    + intros item [<-|[<-|[]]] Ht; simpl in *.
      * discriminate.
      * now exists ["paid"; "sent"].
Defined.

(** ** Primary keys *)

Lemma getPrimaryKey_single_witness :
  getPrimaryKey demo_constraints demo_cons_columns "ORDERS" (Some "hr") = Some "ID" /\
  getPrimaryKey demo_constraints demo_cons_columns "ORDER_ITEMS" (Some "hr") = None.
Proof.
  split.
  - apply (proj1 (getPrimaryKey_single demo_constraints demo_cons_columns "ORDERS" (Some "hr"))).
    exists {| columnName := "ID"; position := 1 |}. split; reflexivity.
  - apply (proj1 (proj2 (getPrimaryKey_single demo_constraints demo_cons_columns
                           "ORDER_ITEMS" (Some "hr")))).
    vm_compute. discriminate.
Defined.

Example getPrimaryKeys_composite :
  getPrimaryKeys demo_constraints demo_cons_columns "ORDER_ITEMS" None
  = [ {| columnName := "ORDER_ID"; position := 1 |};
      {| columnName := "LINE_NO"; position := 2 |} ].
Proof. reflexivity. Qed.

(** ** The trailing semicolon *)

Lemma maybeStripSemicolon_spec_witness :
  maybeStripSemicolon ("BEGIN NULL; END;" ++ nl)
    {| text := "BEGIN NULL; END;" ++ nl; executionType := ANON_BLOCK |}
  = "BEGIN NULL; END;" ++ nl /\
  maybeStripSemicolon ("SELECT 1 FROM DUAL; " ++ nl)
    {| text := "SELECT 1 FROM DUAL; " ++ nl; executionType := LISTING |}
  = "SELECT 1 FROM DUAL" /\
  maybeStripSemicolon "SELECT 1 FROM DUAL " {| text := "SELECT 1 FROM DUAL "; executionType := LISTING |}
  = "SELECT 1 FROM DUAL ".
Proof.
  split; [|split].
  - apply (proj1 (maybeStripSemicolon_spec _ _)). reflexivity.
  - refine (proj1 (proj1 (proj2 (maybeStripSemicolon_spec _ _)) _ "SELECT 1 FROM DUAL" _)).
    + discriminate.
    + reflexivity.
  - apply (proj1 (proj2 (proj2 (maybeStripSemicolon_spec _ _)))).
    + discriminate.
    + intros s H. vm_compute in H.
      assert (E : Js.endsWith "SELECT 1 FROM DUAL" ";" = true)
        by (rewrite H; apply endsWith_append).
      vm_compute in E. discriminate.
Defined.

(** ** Field ids *)

Lemma parseResult_field_ids_witness :
  id {| fieldName := "ID"; id := "c1"; dataType := Some "NUMBER" |} = "c" ++ Js.natToString 1 /\
  Object_keys [("c0", JNumber 3); ("c1", JNumber 4)]
  = map id (fields (parseResult demo_twoColumns)).
Proof.
  split.
  - apply (proj1 (parseResult_field_ids demo_twoColumns) 1). reflexivity.
  - apply (proj2 (proj2 (proj2 (proj2 (parseResult_field_ids demo_twoColumns))))).
    simpl. right. left. reflexivity.
Defined.

(** ** Browsing an empty table *)

Lemma selectTop_no_rows_witness :
  snd (selectTop demo_wrapIdentifier demo_escapeString demo_wrapLiteral demo_joinFilters
         (list string) demo_identify demo_executeEmpty demo_commit demo_getConnection demo_close
             "hr"
         "ORDERS" (JNumber 0) (JNumber 10) None FiltersNone None None [])
  = Return {| trResult := []; trFields := [] |}.
Proof.
  pose (q := match demo_dialect genSelect "ORDERS" (JNumber 0) (JNumber 10) None FiltersNone
                     (Some "HR") false ["*"] with
             | Return q => q
             | Throw _ => ""
             end).
  pose (db' := fst (driverExecuteSimple (list string) demo_identify demo_executeEmpty
                      demo_commit demo_getConnection demo_close q [])).
  rewrite (proj1 (selectTop_no_rows demo_wrapIdentifier demo_escapeString demo_wrapLiteral
                    demo_joinFilters (list string) demo_identify demo_executeEmpty
                        demo_commit demo_getConnection demo_close
                    "hr" "ORDERS" (JNumber 0) (JNumber 10) None FiltersNone None None
                    [] db' q eq_refl) eq_refl).
  reflexivity.
Defined.


(* ================================================================== *)
(** * More of the client on concrete inputs *)

(** ** Running a script *)

Lemma rawExecuteQuery_results_witness :
  map info
    (match snd (demo_client rawExecuteQuery ["SELECT 1 FROM DUAL;UPDATE T SET N = 1"] []) with
     | Return results => results
     | Throw _ => []
     end)
  = [ {| text := "SELECT 1 FROM DUAL;"; executionType := LISTING |};
      {| text := "UPDATE T SET N = 1"; executionType := MODIFICATION |} ].
Proof.
  exact (proj1 (rawExecuteQuery_results (list string) demo_identify demo_execute
      demo_commit demo_getConnection demo_close
                  ["SELECT 1 FROM DUAL;UPDATE T SET N = 1"] []
                  (fst (demo_client rawExecuteQuery
                          ["SELECT 1 FROM DUAL;UPDATE T SET N = 1"] []))
                  _ eq_refl)).
Defined.

Lemma rawExecuteQuery_fails_fast_witness :
  rawExecuteQuery (list string) demo_identify demo_executeStrict demo_commit
    demo_getConnectionLogged demo_closeLogged
    ["SELECT 1 FROM DUAL;SELECT * FROM MISSING;DELETE FROM T"] []
  = (["OPEN"; "SELECT 1 FROM DUAL"; "SELECT * FROM MISSING"; "CLOSE"], Throw demo_ORA_00942).
Proof.
  apply (proj1 (proj2 (rawExecuteQuery_fails_fast (list string) demo_identify demo_executeStrict
                         demo_commit demo_getConnectionLogged demo_closeLogged
                         ["SELECT 1 FROM DUAL;SELECT * FROM MISSING;DELETE FROM T"] []))
           ["OPEN"] tt
           [ {| text := "SELECT 1 FROM DUAL;"; executionType := LISTING |} ]
           {| text := "SELECT * FROM MISSING;"; executionType := LISTING |}
           [ {| text := "DELETE FROM T"; executionType := MODIFICATION |} ]
           ["OPEN"; "SELECT 1 FROM DUAL"]
           (match snd (executeInfos (list string) demo_executeStrict
                         [ {| text := "SELECT 1 FROM DUAL;"; executionType := LISTING |} ]
                         [] ["OPEN"]) with
            | Return done => done
            | Throw _ => []
            end)
           ["OPEN"; "SELECT 1 FROM DUAL"; "SELECT * FROM MISSING"]
           demo_ORA_00942);
    reflexivity.
Defined.

Lemma executeQuery_commands_witness :
  map command
    (match snd (demo_client executeQuery "SELECT 1 FROM DUAL;UPDATE T SET N = 1;" []) with
     | Return results => results
     | Throw _ => []
     end)
  = ["SELECT 1 FROM DUAL;"; "UPDATE T SET N = 1;"].
Proof.
  exact (proj1 (executeQuery_commands (list string) demo_identify demo_execute
      demo_commit demo_getConnection demo_close
                  "SELECT 1 FROM DUAL;UPDATE T SET N = 1;" []
                  (fst (demo_client executeQuery "SELECT 1 FROM DUAL;UPDATE T SET N = 1;" []))
                  _ eq_refl)).
Defined.

(** ** Rows as records of named cells *)

Lemma driverExecuteSimple_distinct_columns_witness :
  snd (driverExecuteSimple (list string) demo_identify demo_executePivot demo_commit
         demo_getConnection demo_close "SELECT * FROM SALES" [])
  = Return [ [("1", JNumber 10); ("2", JNumber 20); ("REGION", JString "EU")] ].
Proof.
  rewrite (proj1 (driverExecuteSimple_distinct_columns (list string) demo_identify
                    demo_executePivot demo_commit demo_getConnection demo_close
                    "SELECT * FROM SALES" [] ["SELECT * FROM SALES"; "COMMIT"]
                    {| result :=
                         {| metaData := Some [{| metaName := "REGION";
                                                 dbTypeName := Some "VARCHAR2" |};
                                              {| metaName := "2"; dbTypeName := Some "NUMBER" |};
                                              {| metaName := "1"; dbTypeName := Some "NUMBER" |}];
                            rows := Some [[JString "EU"; JNumber 20; JNumber 10]];
                            rowsAffected := None |};
                       info := {| text := "SELECT * FROM SALES"; executionType := LISTING |} |}
                    _ _ eq_refl eq_refl eq_refl
                    ltac:(simpl; repeat constructor; simpl; intuition discriminate)
                    ltac:(simpl; intuition discriminate)
                    ltac:(repeat constructor))).
  reflexivity.
Defined.

Lemma driverExecuteSimple_returns_or_throws_witness :
  snd (driverExecuteSimple (list string) demo_identify demo_executeRagged
      demo_commit demo_getConnection demo_close
         "SELECT ID FROM ORDERS" [])
  = Throw TypeError.
Proof.
  rewrite (proj2 (proj2 (driverExecuteSimple_returns_or_throws (list string) demo_identify
                           demo_executeRagged demo_commit demo_getConnection demo_close
                               "SELECT ID FROM ORDERS" []
                           ["SELECT ID FROM ORDERS"; "COMMIT"]
                           {| result := {| metaData := Some [{| metaName := "ID";
                                                                dbTypeName := Some "NUMBER" |}];
                                           rows := Some [[JNumber 1; JNumber 2]];
                                           rowsAffected := None |};
                              info := {| text := "SELECT ID FROM ORDERS";
                                         executionType := LISTING |} |}
                           eq_refl))
             [[JNumber 1; JNumber 2]] eq_refl).
  - reflexivity.
  - constructor. simpl. lia.
Defined.

Lemma driverExecuteSimple_last_column_wins_witness :
  Forall2 (fun r obj =>
             NoDup (Object_keys obj) /\
             forall key,
               objGetOwn obj key = lastNamed ["ID"; "ID"] r key /\
               objGet obj key =
               match lastNamed ["ID"; "ID"] r key with
               | Some v => v
               | None =>
                   if existsb (String.eqb key) Object_prototype_names then JInherited key
                   else JUndefined
               end)
    [[JNumber 1; JNumber 2]; [JNumber 3; JNumber 4]]
    [[("ID", JNumber 2)]; [("ID", JNumber 4)]].
Proof.
  exact (driverExecuteSimple_last_column_wins (list string) demo_identify
           demo_executeTwoColumns demo_commit demo_getConnection demo_close
           "SELECT A.ID, B.ID FROM A, B" []
           ["SELECT A.ID, B.ID FROM A, B"; "COMMIT"]
           {| result := result demo_twoColumns;
              info := {| text := "SELECT A.ID, B.ID FROM A, B"; executionType := LISTING |} |}
           [[JNumber 1; JNumber 2]; [JNumber 3; JNumber 4]]
           [[("ID", JNumber 2)]; [("ID", JNumber 4)]]
           eq_refl eq_refl
           ltac:(simpl; intuition discriminate)
           eq_refl).
Defined.

Lemma selectTop_fields_witness :
  snd (selectTop demo_wrapIdentifier demo_escapeString demo_wrapLiteral demo_joinFilters
         (list string) demo_identify demo_executePivot demo_commit demo_getConnection
         demo_close "hr"
         "SALES" (JNumber 0) (JNumber 10) None FiltersNone None None [])
  = Return {| trResult := [ [("1", JNumber 10); ("2", JNumber 20); ("REGION", JString "EU")] ];
              trFields := ["1"; "2"; "REGION"] |}.
Proof.
  pose (q := match demo_dialect genSelect "SALES" (JNumber 0) (JNumber 10) None FiltersNone
                     (Some "HR") false ["*"] with
             | Return q => q
             | Throw _ => ""
             end).
  rewrite (proj1 (selectTop_fields demo_wrapIdentifier demo_escapeString demo_wrapLiteral
                    demo_joinFilters (list string) demo_identify demo_executePivot
                    demo_commit demo_getConnection demo_close
                    "hr" "SALES" (JNumber 0) (JNumber 10) None FiltersNone None None
                    [] [maybeStripSemicolon q {| text := q; executionType := LISTING |}; "COMMIT"]
                    q
                    {| result :=
                         {| metaData := Some [{| metaName := "REGION";
                                                 dbTypeName := Some "VARCHAR2" |};
                                              {| metaName := "2"; dbTypeName := Some "NUMBER" |};
                                              {| metaName := "1"; dbTypeName := Some "NUMBER" |}];
                            rows := Some [[JString "EU"; JNumber 20; JNumber 10]];
                            rowsAffected := None |};
                       info := {| text := q; executionType := MODIFICATION |} |}
                    _ [JString "EU"; JNumber 20; JNumber 10] []
                    eq_refl eq_refl eq_refl eq_refl
                    ltac:(simpl; repeat constructor; simpl; intuition discriminate)
                    ltac:(simpl; intuition discriminate)
                    ltac:(repeat constructor))).
  reflexivity.
Defined.


(** ** Invariants of a cancelable query *)

Lemma run_queryInvariant_witness :
  connection (run demo_CANCELED_BY_USER [CallExecute; ConnectionAcquired 1; CallCancel])
  = Some 1.
Proof.
  apply (proj1 (proj2 (run_queryInvariant demo_CANCELED_BY_USER
                         [CallExecute; ConnectionAcquired 1; CallCancel]
                         (Nat.le_refl 1)))).
  simpl. now left.
Defined.

Lemma connection_failure_is_rethrown_witness :
  outcome (run demo_CANCELED_BY_USER
             [CallCancel; CallExecute; CallCancel; ConnectionFailed demo_ORA_00942;
              CallCancel; DriverSettled (Return [])])
  = Some (Rejected demo_ORA_00942).
Proof.
  apply (proj1 (connection_failure_is_rethrown demo_CANCELED_BY_USER 1 1 demo_ORA_00942
                  [CallCancel; DriverSettled (Return [])] eq_refl)).
Defined.

(** ** Paths of the Oracle client libraries *)

Lemma platformPath_doubles_backslashes_witness :
  let path := "C:" ++ String backslash "oracle" in
  exists p', platformPath true (Some path) = Some p' /\ halveBackslashes p' = path /\
             String.length p' = String.length path + countBackslashes path.
Proof.
  cbv zeta.
  apply (proj1 (proj2 (proj2 (proj2 (platformPath_doubles_backslashes true
           (Some ("C:" ++ String backslash "oracle"))))))).
  - reflexivity.
  - reflexivity.
  - discriminate.
Defined.

(** ** Column defaults *)

Lemma parseDefault_trims_witness :
  parseDefault (Some "  ") = Some "" /\ hasDefault (Some "  ") = true /\
  parseDefault (parseDefault (Some "  ")) = None.
Proof.
  apply (proj2 (proj2 (proj2 (parseDefault_trims (Some "  "))))) with (d := "  ").
  - reflexivity.
  - discriminate.
  - reflexivity.
Defined.

(** ** Indexes *)


Example listTableIndexes_demo :
  map (fun ti => (tiId ti, tiName ti, tiPrimary ti, tiColumns ti))
      (listTableIndexes demo_indexes demo_ind_columns "ORDER_ITEMS" (Some "HR"))
  = [ ("0", "PK_ITEMS", true,
       Some [ {| indexColumnName := "ORDER_ID"; indexColumnOrder := "ASC" |};
              {| indexColumnName := "LINE_NO"; indexColumnOrder := "ASC" |} ]);
      ("1", "IX_EMPTY", false, None) ].
Proof. reflexivity. Qed.

(** ** Triggers and table properties *)


(** ** Foreign keys *)

Lemma getTableKeys_upper_cases_witness :
  keyFromTable {| keyFromTable := "ORDER_ITEMS"; keyFromSchema := "HR";
                  keyFromColumn := "ORDER_ID"; keyToTable := "ORDERS"; keyToColumn := "ID";
                  keyToSchema := "HR"; constraintName := "FK_ITEMS";
                  onDelete := Some "CASCADE" |}
  = Js.toUpperCase "order_items".
Proof.
  apply (proj1 (getTableKeys_upper_cases demo_cons_columns demo_key_constraints
                  "order_items" (Some "hr"))).
  vm_compute. now left.
Defined.

(** ** Scoping a listing to a schema *)

Lemma listing_schema_case_witness :
  listTables demo_dictionary
    (Some {| filterSchema := Some "hr"; only := Some []; ignore := None |}) = [] /\
  listViews demo_dictionary
    (Some {| filterSchema := Some "hr"; only := Some []; ignore := None |}) = [].
Proof.
  apply (proj2 (proj2 (proj2 (proj2 (listing_schema_case demo_dictionary "hr"
                                        (Some []) None))))).
  reflexivity.
Defined.

(** ** Errors of SELECT generation *)

Lemma genSelect_empty_and_errors_witness :
  demo_dialect genSelect "ORDERS" JUndefined JUndefined None
    (FiltersList [ {| filterField := "STATUS"; filterType := "in";
                      filterValue := VString "paid"; filterOp := None |} ])
    None false ["*"]
  = Throw TypeError.
Proof.
  apply (proj2 (demo_dialect genSelect_empty_and_errors "ORDERS" JUndefined JUndefined None
                  (FiltersList [ {| filterField := "STATUS"; filterType := "in";
                                    filterValue := VString "paid"; filterOp := None |} ])
                  None false ["*"])).
  split; [reflexivity|].
  eexists. eexists. split; [reflexivity|].
  split; [now left|]. split; [reflexivity | discriminate].
Defined.

(** ** What a change set returns *)

Lemma applyChanges_returns_witness :
  exists r,
    snd (demo_changes applyChanges
           {| inserts := None; updates := Some ["2"; "5"]; deletes := None |} [])
    = Return [r] /\
    text (info r) = "SELECT * FROM T WHERE ID = 2;".
Proof.
  pose (changes := {| inserts := @None (list string); updates := Some ["2"; "5"];
                      deletes := @None (list string) |}).
  pose (batch := demo_client driverExecuteMultiple
                   (changeScript string string string demo_buildInsertQueries
                      demo_buildUpdateQueries demo_buildDeleteQueries
                      demo_buildSelectQueriesFromUpdates changes) []).
  pose (results := match snd batch with Return rs => rs | Throw _ => [] end).
  destruct (proj2 (proj2 (demo_changes applyChanges_returns changes [] (fst batch)))
              ["2"; "5"] (firstn 2 results) (skipn 2 results) eq_refl eq_refl eq_refl)
    as [H _].
  eexists. fold changes. rewrite H. split; reflexivity.
Defined.

(** ** Primary keys and the case of the schema *)

Lemma getPrimaryKeys_schema_case_witness :
  exists cols, In cols demo_cons_columns /\ colTableName cols = "ORDERS" /\
               "ID" = colColumnName cols /\ 1%Z = colPosition cols.
Proof.
  apply (proj2 (proj2 (proj2 (getPrimaryKeys_schema_case demo_constraints demo_cons_columns
                                "ORDERS" "hr")))
           (Some "hr") {| columnName := "ID"; position := 1 |}).
  vm_compute. now left.
Defined.
